(** * The duplex OPUS audio client of [main.py], embedded in Rocq

    The program is a WebSocket client that sends microphone audio in 60 ms
    frames and plays the frames it receives.  Its code is three classes
    ([OpusCodec], [AudioIO], [AudioClient]) and a [__main__] block.  The
    embedding keeps that layout: one module per class and one definition
    per method, under the method's name; a [while] loop is given by one of
    its passes and by the function that iterates the pass.

    Everything the program owns lives in one record, [World]; a method is a
    computation in the monad [M], which threads the world and has three
    outcomes: the call returns, it raises, or it does not return because
    the calling thread waits on a condition ([Blocked]).  What the program
    does to the outside (sleeping, sending, writing to the speaker,
    releasing the device, logging) is appended to the [trace] of the world.

    What the program does not own (the codec library, the sound device, the
    socket, the wall clock, the JSON decoder) is not modelled: every call
    into it takes the result of that call as an argument, of type [ext]
    where the call can raise, so a theorem that quantifies over that
    argument holds whatever the library does.

    Time is counted in microseconds, as an integer; the source computes
    with float seconds. *)

From Stdlib Require Import String.
From Stdlib Require Import List ZArith Lia Bool.
Import ListNotations.
#[local] Set Warnings "-register-all".
Local Open Scope Z_scope.

(** ** Module-level configuration *)

Module Config.
Definition SAMPLE_RATE : Z := 24000.
Definition CHANNELS : Z := 1.
Definition FRAME_MS : Z := 60.
(* CHUNK = SAMPLE_RATE * FRAME_MS // 1000 *)
Definition CHUNK : Z := SAMPLE_RATE * FRAME_MS / 1000.
Definition MAX_QUEUE_SIZE : nat := 30.

(** One second and one millisecond, in clock ticks. *)
Definition seconds (n : Z) : Z := n * 1000000.
Definition millis (n : Z) : Z := n * 1000.

(** The frame period [FRAME_MS / 1000] of [_send_loop], in ticks. *)
Definition PERIOD : Z := millis FRAME_MS.

(** Bytes of one paInt16 block of [CHUNK] samples. *)
Definition FRAME_BYTES : Z := CHUNK * 2 * CHANNELS.
End Config.
Import Config.

(** ** Python values the program handles *)

Definition bytes := list Byte.byte.

(** Truth value of a [bytes] object: false when empty. *)
Definition truthy (b : bytes) : bool :=
  match b with [] => false | _ :: _ => true end.

(** Truth value of [x] where [x] is [None] or a [bytes] object. *)
Definition truthy_opt (x : option bytes) : bool :=
  match x with None => false | Some b => truthy b end.

(** What [json.loads] builds.  A dict is the list of its items, each key
    once, and [dict_get] is the lookup. *)
Inductive json :=
| JNone
| JBool (b : bool)
| JInt (z : Z)
| JFloat (literal : string)
| JStr (s : string)
| JList (items : list json)
| JDict (items : list (string * json)).

Fixpoint dict_get (k : string) (items : list (string * json)) : option json :=
  match items with
  | [] => None
  | (k', v) :: rest => if String.eqb k k' then Some v else dict_get k rest
  end.

(** [x == s] for a decoded value [x] and a [str] literal [s]. *)
Definition eq_str (x : json) (s : string) : bool :=
  match x with JStr s' => String.eqb s' s | _ => false end.

(** The exception classes that occur. *)
Inductive exn :=
| OpusError
| OSError
| Empty                  (* queue.Empty *)
| JSONDecodeError
| KeyError
| AttributeError
| TypeError
| WebSocketException
| KeyboardInterrupt.

(** [except Exception] catches every class but [KeyboardInterrupt], which
    derives from [BaseException] only. *)
Definition is_Exception (e : exn) : bool :=
  match e with KeyboardInterrupt => false | _ => true end.

Definition exn_eqb (a b : exn) : bool :=
  match a, b with
  | OpusError, OpusError | OSError, OSError | Empty, Empty
  | JSONDecodeError, JSONDecodeError | KeyError, KeyError
  | AttributeError, AttributeError | TypeError, TypeError
  | WebSocketException, WebSocketException
  | KeyboardInterrupt, KeyboardInterrupt => true
  | _, _ => false
  end.

(** The result of one call into a library. *)
Inductive ext (A : Type) :=
| Returns (a : A)
| Throws (e : exn).
Arguments Returns {A} a.
Arguments Throws {A} e.

(** ** What the program does to the outside: the trace *)

Inductive level := INFO | WARNING | ERROR.

(** One constructor per [logger] call of the source. *)
Inductive log_msg :=
| Msg_encode_failed          (* "编码失败: {e}" *)
| Msg_decode_failed          (* "解码失败: {e}" *)
| Msg_playback_failed        (* "音频播放失败: {e}" *)
| Msg_audio_released         (* "音频资源已释放" *)
| Msg_connected              (* "成功连接到服务器 {WS_URL}" *)
| Msg_send_exception         (* "发送异常: {e}" *)
| Msg_heartbeat_failed       (* "心跳发送失败: {e}" *)
| Msg_control (data : json)  (* "控制消息: {data}" *)
| Msg_illegal_control (message : string)  (* "非法控制消息: {message}" *)
| Msg_connection_error       (* "连接错误: {error}" *)
| Msg_connection_closed      (* "连接关闭 [{code}] {reason}" *)
| Msg_system_released        (* "系统资源已释放" *)
| Msg_connection_exception   (* "连接异常: {e}" *)
| Msg_retry_in (delay : Z)   (* "{delay}秒后尝试重连..." *)
| Msg_retries_exceeded       (* "超过最大重试次数" *)
| Msg_user_interrupt.        (* "用户中断操作" *)

Inductive opcode := OPCODE_BINARY | OPCODE_PING.

Inductive ws_data :=
| Binary (b : bytes)
| Text (s : string).

Inductive thread_target := Target_send_loop | Target_keepalive.

Inductive io :=
| Sleep (d : Z)                               (* time.sleep(d) was called *)
| WsSend (t : Z) (data : ws_data) (op : opcode) (* ws.send returned; called at time t *)
| WsClose                                     (* ws.close() was called *)
| WsRunForever                                (* ws.run_forever(...) was called *)
| DevWrite (pcm : bytes)                      (* output_stream.write returned *)
| DevRelease                                  (* AudioIO.release ran its five device calls *)
| ThreadStart (target : thread_target)        (* Thread(target=...).start() *)
| Log (l : level) (m : log_msg).

(** ** The world *)

Record World := mkWorld {
  input_queue : list bytes;        (* AudioIO.input_queue, oldest first *)
  output_buffer : list Byte.byte;  (* AudioIO.output_buffer, leftmost first *)
  is_running : bool;               (* AudioClient.is_running *)
  ws : bool;                       (* truth value of AudioClient.ws *)
  clock : Z;                       (* the wall clock *)
  trace : list io                  (* oldest first *)
}.

Definition set_input_queue (q : list bytes) (w : World) : World :=
  mkWorld q (output_buffer w) (is_running w) (ws w) (clock w) (trace w).
Definition set_output_buffer (b : list Byte.byte) (w : World) : World :=
  mkWorld (input_queue w) b (is_running w) (ws w) (clock w) (trace w).
Definition set_is_running (r : bool) (w : World) : World :=
  mkWorld (input_queue w) (output_buffer w) r (ws w) (clock w) (trace w).
Definition set_clock (c : Z) (w : World) : World :=
  mkWorld (input_queue w) (output_buffer w) (is_running w) (ws w) c (trace w).
Definition emit (e : io) (w : World) : World :=
  mkWorld (input_queue w) (output_buffer w) (is_running w) (ws w) (clock w)
          (trace w ++ [e]).

(** The world when [AudioClient.__init__] has returned: both containers
    empty, [is_running = False], [ws] set. *)
Definition init_world (t0 : Z) : World := mkWorld [] [] false true t0 [].

(** ** The monad of methods *)

Inductive outcome (A : Type) :=
| Ret (a : A)
| Raise (e : exn)
| Blocked.
Arguments Ret {A} a.
Arguments Raise {A} e.
Arguments Blocked {A}.

Definition M (A : Type) : Type := World -> outcome A * World.

Definition ret {A} (a : A) : M A := fun w => (Ret a, w).
Definition raise {A} (e : exn) : M A := fun w => (Raise e, w).
Definition wait {A} : M A := fun w => (Blocked, w).

Definition bind {A B} (m : M A) (k : A -> M B) : M B :=
  fun w =>
    match m w with
    | (Ret a, w') => k a w'
    | (Raise e, w') => (Raise e, w')
    | (Blocked, w') => (Blocked, w')
    end.

Declare Scope py_scope.
Delimit Scope py_scope with py.
Notation "x <- m ;; k" := (bind m (fun x => k))
  (at level 61, m at next level, right associativity) : py_scope.
Notation "m ;; k" := (bind m (fun _ => k))
  (at level 61, right associativity) : py_scope.
Local Open Scope py_scope.

(** [try: body / except <handles>: handler].  An exception the clause does
    not name passes through; so does [Blocked]. *)
Definition try_except {A} (body : M A) (handles : exn -> bool) (handler : exn -> M A) : M A :=
  fun w =>
    match body w with
    | (Raise e, w') => if handles e then handler e w' else (Raise e, w')
    | r => r
    end.

Definition gets {A} (f : World -> A) : M A := fun w => (Ret (f w), w).
Definition modify (f : World -> World) : M unit := fun w => (Ret tt, f w).
Definition out (e : io) : M unit := modify (emit e).
Definition logger (l : level) (m : log_msg) : M unit := out (Log l m).

(** The world a computation leaves, and its outcome. *)
Definition exec {A} (m : M A) (w : World) : World := snd (m w).
Definition result {A} (m : M A) (w : World) : outcome A := fst (m w).

(** ** The standard library: clock, [queue.Queue], [collections.deque] *)

Module Time.

(** [time.time()], read after [dt] ticks have gone by. *)
Definition time (dt : N) : M Z :=
  modify (fun w => set_clock (clock w + Z.of_N dt) w) ;;
  gets clock.

(** [time.sleep(d)]: the thread resumes [d] ticks later, or [late] ticks
    after that. *)
Definition sleep (d : Z) (late : N) : M unit :=
  out (Sleep d) ;;
  modify (fun w => set_clock (clock w + Z.max 0 d + Z.of_N late) w).

End Time.

Module Queue.
Section Ops.
Context {A : Type}.
Variable maxsize : nat.

(** [Queue.put(item)] with the defaults [block=True, timeout=None]: while
    [maxsize > 0] and [qsize() >= maxsize] the caller waits on [not_full],
    which is the answer [None]; there is no [queue.Full] on this path.
    Otherwise the item goes to the end. *)
Definition put (item : A) (q : list A) : option (list A) :=
  if andb (0 <? maxsize)%nat (maxsize <=? length q)%nat then None
  else Some (q ++ [item]).

(** [Queue.get_nowait()]: the oldest item and the rest, or [None] for
    [queue.Empty]. *)
Definition get_nowait (q : list A) : option (A * list A) :=
  match q with
  | [] => None
  | x :: rest => Some (x, rest)
  end.

End Ops.
End Queue.

Module Deque.
Section Ops.
Context {A : Type}.
Variable maxlen : nat.

(** [deque.append(x)] on a deque with [maxlen]: the item goes to the right;
    when that makes the deque longer than [maxlen], one item is removed
    from the left. *)
Definition append (x : A) (d : list A) : list A :=
  let d' := d ++ [x] in
  if (maxlen <? length d')%nat then tl d' else d'.

(** [deque.extend(iterable)]: [append] for each item, left to right. *)
Definition extend (xs : list A) (d : list A) : list A :=
  fold_left (fun acc x => append x acc) xs d.

(** [deque.clear()]. *)
Definition clear (d : list A) : list A := [].

End Ops.
End Deque.

(** Time going by between two statements. *)
Definition elapse (dt : N) : M unit :=
  modify (fun w => set_clock (clock w + Z.of_N dt) w).

(** [if x := e: k x else: otherwise], for [x] a [bytes] object or [None]. *)
Definition if_truthy {A} (x : option bytes) (k : bytes -> M A) (otherwise : M A) : M A :=
  match x with
  | Some b => if truthy b then k b else otherwise
  | None => otherwise
  end.

(** [for x in xs: f x]. *)
Fixpoint for_each {A} (f : A -> M unit) (xs : list A) : M unit :=
  match xs with
  | [] => ret tt
  | x :: rest => f x ;; for_each f rest
  end.

(** What a call into a library does to the caller. *)
Definition call {A} (r : ext A) : M A :=
  match r with
  | Returns a => ret a
  | Throws e => raise e
  end.

(** ** class OpusCodec *)

Module OpusCodec.

(** [encode(pcm)]; [enc] is what [self.encoder.encode(pcm, CHUNK)] does. *)
Definition encode (enc : ext bytes) (pcm : bytes) : M (option bytes) :=
  try_except
    (b <- call enc ;; ret (Some b))
    (exn_eqb OpusError)
    (fun _ => logger ERROR Msg_encode_failed ;; ret None).

(** [decode(opus)]; [dec] is what [self.decoder.decode(opus, CHUNK)] does. *)
Definition decode (dec : ext bytes) (opus : bytes) : M (option bytes) :=
  try_except
    (b <- call dec ;; ret (Some b))
    (exn_eqb OpusError)
    (fun _ => logger ERROR Msg_decode_failed ;; ret None).

End OpusCodec.

(** ** class AudioIO *)

Module AudioIO.

Inductive pa_flag := paContinue.

(** [self.input_queue.put(item)] *)
Definition input_queue_put (item : bytes) : M unit :=
  q <- gets input_queue ;;
  match Queue.put MAX_QUEUE_SIZE item q with
  | Some q' => modify (set_input_queue q')
  | None => wait
  end.

(** [self.input_queue.get_nowait()] *)
Definition input_queue_get_nowait : M bytes :=
  q <- gets input_queue ;;
  match Queue.get_nowait q with
  | Some (x, q') => modify (set_input_queue q') ;; ret x
  | None => raise Empty
  end.

Definition _input_callback (in_data : bytes) : M (bytes * pa_flag) :=
  input_queue_put in_data ;;
  ret (in_data, paContinue).

Definition get_input_frame : M (option bytes) :=
  try_except
    (x <- input_queue_get_nowait ;; ret (Some x))
    (exn_eqb Empty)
    (fun _ => ret None).

(** [self.output_stream.write(pcm_data)]; [wr] is what the device does. *)
Definition output_stream_write (wr : ext unit) (pcm_data : bytes) : M unit :=
  call wr ;; out (DevWrite pcm_data).

(** [play_output(pcm_data)].  Iterating a [bytes] object yields its bytes one
    by one, so [extend] appends [len(pcm_data)] items to the deque. *)
Definition play_output (wr : ext unit) (pcm_data : bytes) : M unit :=
  if truthy pcm_data then
    modify (fun w => set_output_buffer
                       (Deque.extend MAX_QUEUE_SIZE pcm_data (output_buffer w)) w) ;;
    try_except
      (output_stream_write wr pcm_data)
      (exn_eqb OSError)
      (fun _ => logger ERROR Msg_playback_failed)
  else ret tt.

(** [release()]: both streams stopped and closed, PortAudio terminated.
    The five calls are recorded as one event and taken to return. *)
Definition release : M unit :=
  out DevRelease ;;
  logger INFO Msg_audio_released.

End AudioIO.

(** ** class AudioClient *)

Module AudioClient.

Definition ping_interval : Z := 25.

(** [self.ws.send(data, opcode=op)]; [r] is what the socket does.  A send
    that returns is recorded with the time of the call. *)
Definition ws_send (r : ext unit) (data : ws_data) (op : opcode) : M unit :=
  call r ;;
  t <- gets clock ;;
  out (WsSend t data op).

Definition _on_open : M unit :=
  logger INFO Msg_connected ;;
  modify (set_is_running true) ;;
  out (ThreadStart Target_send_loop) ;;
  out (ThreadStart Target_keepalive).

(** What the surroundings do during one pass of the [while] of
    [_send_loop]. *)
Record SendEnv := mkSendEnv {
  dt_loop : N;        (* time gone by when the pass reads the clock *)
  late : N;           (* how far [time.sleep] oversleeps *)
  dt_work : N;        (* time from waking up to the call of [ws.send] *)
  enc : ext bytes;    (* what the encoder does *)
  sent : ext unit;    (* what [ws.send] does *)
  dt_send : N         (* time from that call to the next clock reading *)
}.

(** How a pass of a [while] loop ends. *)
Inductive ctl (S : Type) :=
| Continue (s : S)    (* back to the loop test, with the locals [s] *)
| Break               (* [break] *)
| Done.               (* the loop test was false *)
Arguments Continue {S} s.
Arguments Break {S}.
Arguments Done {S}.

(** The first half of the [try] block of [_send_loop]: waiting until one
    period has gone by since [last_send]. *)
Definition pace (env : SendEnv) (last_send : Z) : M unit :=
  now <- Time.time (dt_loop env) ;;
  let elapsed := now - last_send in
  let sleep_time := PERIOD - elapsed in
  if 0 <? sleep_time then Time.sleep sleep_time (late env) else ret tt.

(** The second half: fetching, encoding and sending one frame.  The value
    is [last_send] after it. *)
Definition encode_and_send (env : SendEnv) (last_send : Z) : M Z :=
  pcm_frame <- AudioIO.get_input_frame ;;
  if_truthy pcm_frame
    (fun pcm =>
       opus_frame <- OpusCodec.encode (enc env) pcm ;;
       if_truthy opus_frame
         (fun opus =>
            elapse (dt_work env) ;;
            ws_send (sent env) (Binary opus) OPCODE_BINARY ;;
            Time.time (dt_send env))
         (ret last_send))
    (ret last_send).

(** The [try] block of [_send_loop]. *)
Definition send_body (env : SendEnv) (last_send : Z) : M Z :=
  pace env last_send ;;
  encode_and_send env last_send.

(** One pass of [while self.is_running: try: ... except Exception: ... break]. *)
Definition send_pass (env : SendEnv) (last_send : Z) : M (ctl Z) :=
  running <- gets is_running ;;
  if running then
    try_except
      (ls <- send_body env last_send ;; ret (Continue ls))
      is_Exception
      (fun _ => logger ERROR Msg_send_exception ;; ret Break)
  else ret Done.

(** Whether a loop has been left when the passes given to it are used up. *)
Inductive loop_status := Looping | Left_loop.

Fixpoint send_passes (envs : list SendEnv) (last_send : Z) : M loop_status :=
  match envs with
  | [] => ret Looping
  | env :: rest =>
      c <- send_pass env last_send ;;
      match c with
      | Continue ls => send_passes rest ls
      | Break | Done => ret Left_loop
      end
  end.

(** [_send_loop], for as many passes as [envs] has. *)
Definition _send_loop (dt0 : N) (envs : list SendEnv) : M loop_status :=
  last_send <- Time.time dt0 ;;
  send_passes envs last_send.

Record KeepEnv := mkKeepEnv {
  ka_late : N;        (* how far [time.sleep] oversleeps *)
  ka_sent : ext unit  (* what [ws.send] does *)
}.

(** One pass of the [while] of [_keepalive]. *)
Definition keepalive_pass (env : KeepEnv) : M (ctl unit) :=
  running <- gets is_running ;;
  if running then
    Time.sleep (seconds ping_interval) (ka_late env) ;;
    try_except
      (ws_send (ka_sent env) (Text "PING") OPCODE_PING)
      is_Exception
      (fun _ => logger WARNING Msg_heartbeat_failed) ;;
    ret (Continue tt)
  else ret Done.

Fixpoint _keepalive (envs : list KeepEnv) : M loop_status :=
  match envs with
  | [] => ret Looping
  | env :: rest =>
      c <- keepalive_pass env ;;
      match c with
      | Continue _ => _keepalive rest
      | Break | Done => ret Left_loop
      end
  end.

Definition _handle_audio (dec : ext bytes) (wr : ext unit) (opus_frame : bytes) : M unit :=
  pcm_frame <- OpusCodec.decode dec opus_frame ;;
  if_truthy pcm_frame (AudioIO.play_output wr) (ret tt).

(** [data.get(key)]: a dict answers with the value or [None]; the other
    decoded types have no [get]. *)
Definition py_get (data : json) (key : string) : M json :=
  match data with
  | JDict items =>
      match dict_get key items with
      | Some v => ret v
      | None => ret JNone
      end
  | _ => raise AttributeError
  end.

(** [data[key]] for a dict [data]. *)
Definition py_getitem (data : json) (key : string) : M json :=
  match data with
  | JDict items =>
      match dict_get key items with
      | Some v => ret v
      | None => raise KeyError
      end
  | _ => raise TypeError
  end.

(** [_handle_control(message)]; [loads] is what [json.loads(message)] does. *)
Definition _handle_control (loads : ext json) (message : string) : M unit :=
  try_except
    (data <- call loads ;;
     logger INFO (Msg_control data) ;;
     ty <- py_get data "type" ;;
     if eq_str ty "tts" then
       st <- py_getitem data "state" ;;
       if eq_str st "stop" then
         modify (fun w => set_output_buffer (Deque.clear (output_buffer w)) w)
       else ret tt
     else ret tt)
    (exn_eqb JSONDecodeError)
    (fun _ => logger WARNING (Msg_illegal_control message)).

(** What the libraries do while one message is handled. *)
Record MsgEnv := mkMsgEnv {
  dec : ext bytes;    (* the decoder *)
  wr : ext unit;      (* [output_stream.write] *)
  loads : ext json    (* [json.loads] *)
}.

Definition _on_message (env : MsgEnv) (message : ws_data) : M unit :=
  match message with
  | Binary b => _handle_audio (dec env) (wr env) b
  | Text s => _handle_control (loads env) s
  end.

Definition _on_error : M unit :=
  logger ERROR Msg_connection_error ;;
  modify (set_is_running false).

(** [self.ws.close()], recorded and taken to return. *)
Definition ws_close : M unit := out WsClose.

Definition _cleanup : M unit :=
  AudioIO.release ;;
  (has_ws <- gets ws ;; if has_ws then ws_close else ret tt) ;;
  logger INFO Msg_system_released.

Definition _on_close : M unit :=
  modify (set_is_running false) ;;
  logger INFO Msg_connection_closed ;;
  _cleanup.

(** The callbacks of the socket that concern the life of the connection. *)
Inductive callback := Cb_open | Cb_error | Cb_close.

Definition fire (cb : callback) : M unit :=
  match cb with
  | Cb_open => _on_open
  | Cb_error => _on_error
  | Cb_close => _on_close
  end.

(** What one call of [self.ws.run_forever(...)] does: it makes callbacks, in
    some order, and then returns or raises.  [nap_late] is how far the
    [time.sleep(delay)] that follows a failure oversleeps. *)
Record Session := mkSession {
  callbacks : list callback;
  ending : ext unit;
  nap_late : N
}.

Definition run_forever (s : Session) : M unit :=
  out WsRunForever ;;
  for_each fire (callbacks s) ;;
  call (ending s).

Definition max_retries : Z := 5.

(** How [run] is left. *)
Inductive run_end :=
| By_break            (* [run_forever] returned *)
| By_else.            (* the loop test failed: the [else] of the [while] ran *)

(** The [while retries < max_retries] of [run], from the loop test on.
    Each pass takes the next session; [None] says that [sessions] ended
    while the loop still wanted one. *)
Fixpoint run_from (sessions : list Session) (retries : Z) : M (option run_end) :=
  if retries <? max_retries then
    match sessions with
    | [] => ret None
    | s :: rest =>
        r <- try_except
               (run_forever s ;; ret None)
               is_Exception
               (fun _ =>
                  logger ERROR Msg_connection_exception ;;
                  let retries := retries + 1 in
                  let delay := Z.min (2 ^ retries) 30 in
                  logger INFO (Msg_retry_in delay) ;;
                  Time.sleep (seconds delay) (nap_late s) ;;
                  ret (Some retries)) ;;
        match r with
        | None => ret (Some By_break)
        | Some retries => run_from rest retries
        end
    end
  else
    logger ERROR Msg_retries_exceeded ;;
    ret (Some By_else).

Definition run (sessions : list Session) : M (option run_end) :=
  let retries := 0 in
  run_from sessions retries.

End AudioClient.

(** ** The [__main__] block *)

(** How the block is left. *)
Inductive main_end :=
| Ran (r : option AudioClient.run_end)   (* [client.run()] returned *)
| Interrupted.                           (* the [except KeyboardInterrupt] ran *)

(** The [except KeyboardInterrupt] clause. *)
Definition interrupt_handler : M unit :=
  AudioClient._cleanup ;;
  logger INFO Msg_user_interrupt.

Definition main (sessions : list AudioClient.Session) : M main_end :=
  try_except
    (r <- AudioClient.run sessions ;; ret (Ran r))
    (exn_eqb KeyboardInterrupt)
    (fun _ => interrupt_handler ;; ret Interrupted).
(** * Vocabulary of the properties *)

Import AudioClient.

(** ** Reading a trace *)

(** The requested durations of the [time.sleep] calls, oldest first. *)
Fixpoint sleeps (tr : list io) : list Z :=
  match tr with
  | [] => []
  | Sleep d :: rest => d :: sleeps rest
  | _ :: rest => sleeps rest
  end.

(** The times of the binary sends. *)
Fixpoint send_times (tr : list io) : list Z :=
  match tr with
  | [] => []
  | WsSend t _ OPCODE_BINARY :: rest => t :: send_times rest
  | _ :: rest => send_times rest
  end.

(** The blocks written to the speaker. *)
Fixpoint played (tr : list io) : list bytes :=
  match tr with
  | [] => []
  | DevWrite pcm :: rest => pcm :: played rest
  | _ :: rest => played rest
  end.

(** How often [AudioIO.release] and [ws.close] were called. *)
Fixpoint releases (tr : list io) : nat :=
  match tr with
  | [] => 0
  | DevRelease :: rest => S (releases rest)
  | _ :: rest => releases rest
  end.

Fixpoint closes (tr : list io) : nat :=
  match tr with
  | [] => 0
  | WsClose :: rest => S (closes rest)
  | _ :: rest => closes rest
  end.

(** How often [run_forever] was called. *)
Fixpoint connects (tr : list io) : nat :=
  match tr with
  | [] => 0
  | WsRunForever :: rest => S (connects rest)
  | _ :: rest => connects rest
  end.

(** The last [n] items of a list. *)
Definition lastn {A} (n : nat) (l : list A) : list A :=
  skipn (length l - n) l.


(** ** Runs of the capture queue *)

(** The two things that happen to [input_queue]: PortAudio's thread calls
    [_input_callback], the send loop calls [get_input_frame]. *)
Inductive queue_op :=
| Offer (in_data : bytes)
| Take.

Definition queue_step (w : World) (op : queue_op) : World :=
  match op with
  | Offer d => exec (AudioIO._input_callback d) w
  | Take => exec AudioIO.get_input_frame w
  end.

Definition queue_run (ops : list queue_op) (w : World) : World :=
  fold_left queue_step ops w.

(** PortAudio's thread delivering [frames] one after the other. *)
Definition offer_all (frames : list bytes) : M unit :=
  for_each (fun d => AudioIO._input_callback d ;; ret tt) frames.

(** ** Sample data *)

(** A block of [CHUNK] silent samples. *)
Definition silence : bytes := repeat Byte.x00 (Z.to_nat FRAME_BYTES).

(** A block that starts with thirty bytes [0x01] and is silent after. *)
Definition click : bytes := repeat Byte.x01 30 ++ repeat Byte.x00 (Z.to_nat FRAME_BYTES - 30).

(** The world after [__init__] with thirty blocks waiting in the queue. *)
Definition full_world : World :=
  set_input_queue (repeat silence MAX_QUEUE_SIZE) (init_world 0).

(** ** Runs of the receive path *)

(** The world without what [output_buffer] holds. *)
Definition forget_buffer (w : World) : World := set_output_buffer [] w.

(** The socket's thread handling messages one after the other; what a
    handler raises is the socket library's business and is left aside. *)
Definition inbound_step (w : World) (m : MsgEnv * ws_data) : World :=
  exec (_on_message (fst m) (snd m)) w.

Definition inbound_run (msgs : list (MsgEnv * ws_data)) (w : World) : World :=
  fold_left inbound_step msgs w.

(** What [json.loads] makes of [{"type": "tts", "state": "stop"}]. *)
Definition stop_message : json :=
  JDict [("type"%string, JStr "tts"); ("state"%string, JStr "stop")].

(** What [play_output] adds to the trace. *)
Definition play_events (wr : ext unit) (pcm_data : bytes) : list io :=
  if truthy pcm_data then
    match wr with
    | Returns _ => [DevWrite pcm_data]
    | Throws OSError => [Log ERROR Msg_playback_failed]
    | Throws _ => []
    end
  else [].

(** ** Vocabulary of the send loop *)

(** What [pace] adds to the trace when the clock reads [now]. *)
Definition pacing_sleep (now last_send : Z) : list io :=
  if 0 <? PERIOD - (now - last_send)
  then [Sleep (PERIOD - (now - last_send))]
  else [].

(** The world [pace] leaves. *)
Definition paced (env : SendEnv) (last_send : Z) (w : World) : World :=
  exec (pace env last_send) w.

(** The world in which the connection is open: [_on_open] has run. *)
Definition open_world : World := exec _on_open (init_world 0).

(** Two encoded bytes, standing for an OPUS packet. *)
Definition packet : bytes := [Byte.x4f; Byte.x70].

(** The open connection with two blocks waiting to be sent. *)
Definition two_frames_world : World := set_input_queue [silence; silence] open_world.

Definition send_works : SendEnv :=
  mkSendEnv 0 0 0 (Returns packet) (Returns tt) 0.






(** Each time is at least one period after the one before it, the first at
    least one period after [t]. *)
Fixpoint spaced (t : Z) (times : list Z) : Prop :=
  match times with
  | [] => True
  | x :: rest => t + PERIOD <= x /\ spaced x rest
  end.

(** ** Vocabulary of the connection loop *)


(** The delay after the [k]-th failure, in seconds and in ticks. *)
Definition delay_s (k : Z) : Z := Z.min (2 ^ k) 30.
Definition delay_of (k : nat) : Z := seconds (delay_s (Z.of_nat k)).


(** The world after a session that ended with an exception, when [retries]
    failures came before it. *)
Definition after_failed_session (s : Session) (retries : Z) (w : World) : World :=
  exec (Time.sleep (seconds (delay_s (retries + 1))) (nap_late s))
    (emit (Log INFO (Msg_retry_in (delay_s (retries + 1))))
       (emit (Log ERROR Msg_connection_exception)
          (exec (for_each fire (callbacks s))
             (emit WsRunForever w)))).

(** Sessions for the examples. *)
Definition failing : Session := mkSession [] (Throws WebSocketException) 0.
Definition opening_then_failing : Session :=
  mkSession [Cb_open] (Throws WebSocketException) 0.
Definition closed_then_interrupted : Session :=
  mkSession [Cb_open; Cb_close] (Throws KeyboardInterrupt) 0.

(** ** Vocabulary of the teardown *)

(** The two ways into [_cleanup]: the socket reports the close, or the
    process is interrupted. *)
Inductive closing :=
| Transport_close
| Shutdown_signal.

Definition close_by (c : closing) : M unit :=
  match c with
  | Transport_close => _on_close
  | Shutdown_signal => interrupt_handler
  end.

(** * Vocabulary of the further properties *)

(** ** The capture queue, end to end *)

(** [n] calls of [get_input_frame] in a row, with what each returned. *)
Fixpoint take_n (n : nat) : M (list (option bytes)) :=
  match n with
  | O => ret []
  | S n' =>
      x <- AudioIO.get_input_frame ;;
      xs <- take_n n' ;;
      ret (x :: xs)
  end.

(** ** The receive path *)

(** The block that handling one message writes to the speaker, if any. *)
Definition block_played (m : MsgEnv * ws_data) : list bytes :=
  match snd m with
  | Binary _ =>
      match dec (fst m), wr (fst m) with
      | Returns pcm, Returns _ => if truthy pcm then [pcm] else []
      | _, _ => []
      end
  | Text _ => []
  end.

(** [play_output] called for one block after the other, whatever it
    raised. *)
Definition play_step (w : World) (p : ext unit * bytes) : World :=
  exec (AudioIO.play_output (fst p) (snd p)) w.

Definition play_run (ps : list (ext unit * bytes)) (w : World) : World :=
  fold_left play_step ps w.

(** A decoded dict is a stop directive: ['type'] is ['tts'] and ['state']
    is ['stop']. *)
Definition is_stop_directive (items : list (string * json)) : bool :=
  match dict_get "type" items, dict_get "state" items with
  | Some ty, Some st => eq_str ty "tts" && eq_str st "stop"
  | _, _ => false
  end.

(** A decoded dict is a ['tts'] message without ['state']. *)
Definition lacks_state (items : list (string * json)) : bool :=
  match dict_get "type" items, dict_get "state" items with
  | Some ty, None => eq_str ty "tts"
  | _, _ => false
  end.

Definition is_log (e : io) : bool :=
  match e with Log _ _ => true | _ => false end.

(** What a decoded dict that is not a [tts] message without state makes
    [_handle_control] do to the world: one log record, and the buffer
    emptied when the dict is a stop directive. *)
Definition control_effect (items : list (string * json)) (w : World) : World :=
  let w' := emit (Log INFO (Msg_control (JDict items))) w in
  if is_stop_directive items then set_output_buffer [] w' else w'.

(** ** The two loops *)

(** The times of the keepalive pings. *)
Fixpoint ping_times (tr : list io) : list Z :=
  match tr with
  | [] => []
  | WsSend t _ OPCODE_PING :: rest => t :: ping_times rest
  | _ :: rest => ping_times rest
  end.

(** Each time is at least [gap] after the one before it, the first at least
    [gap] after [t]. *)
Fixpoint apart (gap t : Z) (times : list Z) : Prop :=
  match times with
  | [] => True
  | x :: rest => t + gap <= x /\ apart gap x rest
  end.

(** A keepalive pass whose send returns, or raises an [Exception]. *)
Definition catchable (env : KeepEnv) : bool :=
  match ka_sent env with
  | Returns _ => true
  | Throws e => is_Exception e
  end.

(** Passes for the examples: the ping goes out, the ping fails. *)
Definition ping_works : KeepEnv := mkKeepEnv 0 (Returns tt).
Definition ping_fails : KeepEnv := mkKeepEnv 0 (Throws WebSocketException).

(** A pass in which the encoder raises something else than [OpusError]. *)
Definition encoder_breaks : SendEnv :=
  mkSendEnv 0 0 0 (Throws TypeError) (Returns tt) 0.

(** The open connection with an empty block and a silent block waiting. *)
Definition empty_frame_world : World := set_input_queue [[]; silence] open_world.

(** ** The connection loop and the callbacks *)

(** The sum of the durations in a list. *)
Definition total (ds : list Z) : Z := fold_right Z.add 0 ds.

Definition is_close (cb : callback) : bool :=
  match cb with Cb_close => true | _ => false end.

Definition is_open (cb : callback) : bool :=
  match cb with Cb_open => true | _ => false end.

(** A session in which the socket does not report a close. *)
Definition no_close (s : Session) : bool :=
  negb (existsb is_close (callbacks s)).

(** How often a thread with the given target was started. *)
Fixpoint thread_starts (target : thread_target) (tr : list io) : nat :=
  match tr with
  | [] => 0
  | ThreadStart Target_send_loop :: rest =>
      match target with
      | Target_send_loop => S (thread_starts target rest)
      | Target_keepalive => thread_starts target rest
      end
  | ThreadStart Target_keepalive :: rest =>
      match target with
      | Target_send_loop => thread_starts target rest
      | Target_keepalive => S (thread_starts target rest)
      end
  | _ :: rest => thread_starts target rest
  end.

(** A session that ends with [run_forever] returning, and one that is
    interrupted before the socket reports anything. *)
Definition returning : Session := mkSession [Cb_open; Cb_error] (Returns tt) 0.
Definition interrupted : Session := mkSession [Cb_open] (Throws KeyboardInterrupt) 0.
(** * Proofs *)

#[local] Opaque PERIOD.

(** ** Traces and containers *)

Lemma sleeps_app a b : sleeps (a ++ b) = sleeps a ++ sleeps b.
Proof.
  induction a as [|e a IH]; simpl; [reflexivity|].
  destruct e; simpl; rewrite IH; reflexivity.
Qed.

Lemma send_times_app a b : send_times (a ++ b) = send_times a ++ send_times b.
Proof.
  induction a as [|e a IH]; simpl; [reflexivity|].
  destruct e as [| t d [|] | | | | | |]; simpl; rewrite IH; reflexivity.
Qed.

Lemma played_app a b : played (a ++ b) = played a ++ played b.
Proof.
  induction a as [|e a IH]; simpl; [reflexivity|].
  destruct e; simpl; rewrite IH; reflexivity.
Qed.

Lemma releases_app a b : (releases (a ++ b) = releases a + releases b)%nat.
Proof.
  induction a as [|e a IH]; simpl; [reflexivity|].
  destruct e; simpl; rewrite IH; reflexivity.
Qed.

Lemma closes_app a b : (closes (a ++ b) = closes a + closes b)%nat.
Proof.
  induction a as [|e a IH]; simpl; [reflexivity|].
  destruct e; simpl; rewrite IH; reflexivity.
Qed.

Lemma lastn_length {A} n (l : list A) : length (lastn n l) = Nat.min n (length l).
Proof. unfold lastn. rewrite length_skipn. lia. Qed.

Lemma lastn_all {A} n (l : list A) : (length l <= n)%nat -> lastn n l = l.
Proof.
  intros H. unfold lastn. replace (length l - n)%nat with 0%nat by lia. reflexivity.
Qed.

Lemma lastn_app_lastn {A} n (a b : list A) :
  lastn n (lastn n a ++ b) = lastn n (a ++ b).
Proof.
  destruct (Nat.le_gt_cases (length a) n) as [Hle|Hgt].
  - rewrite (lastn_all n a Hle). reflexivity.
  - unfold lastn at 1 3. rewrite !length_app, lastn_length.
    replace (Nat.min n (length a)) with n by lia.
    replace (n + length b - n)%nat with (length b) by lia.
    replace (length a + length b - n)%nat with (length b + (length a - n))%nat by lia.
    rewrite <- skipn_skipn. f_equal.
    rewrite skipn_app.
    replace (length a - n - length a)%nat with 0%nat by lia.
    reflexivity.
Qed.

Section DequeFacts.
Context {A : Type}.
Variable maxlen : nat.

Lemma deque_append_lastn (x : A) d :
  (length d <= maxlen)%nat -> Deque.append maxlen x d = lastn maxlen (d ++ [x]).
Proof.
  intros H. unfold Deque.append, lastn. rewrite length_app. simpl.
  destruct (Nat.ltb_spec maxlen (length d + 1)) as [Hlt|Hge].
  - replace (length d + 1 - maxlen)%nat with 1%nat by lia. reflexivity.
  - replace (length d + 1 - maxlen)%nat with 0%nat by lia. reflexivity.
Qed.

Lemma deque_extend_lastn (xs d : list A) :
  (length d <= maxlen)%nat -> Deque.extend maxlen xs d = lastn maxlen (d ++ xs).
Proof.
  revert d. induction xs as [|x xs IH]; intros d H.
  - simpl. rewrite app_nil_r. symmetry. apply lastn_all, H.
  - simpl. rewrite deque_append_lastn by exact H.
    rewrite IH by (rewrite lastn_length; lia).
    rewrite lastn_app_lastn, <- app_assoc. reflexivity.
Qed.

Lemma deque_extend_bounded (xs d : list A) :
  (length d <= maxlen)%nat -> (length (Deque.extend maxlen xs d) <= maxlen)%nat.
Proof.
  intros H. rewrite deque_extend_lastn by exact H. rewrite lastn_length. lia.
Qed.

End DequeFacts.

(** ** The capture queue *)

Lemma put_below_capacity (w : World) (item : bytes) :
  (length (input_queue w) < MAX_QUEUE_SIZE)%nat ->
  AudioIO.input_queue_put item w = (Ret tt, set_input_queue (input_queue w ++ [item]) w).
Proof.
  intros H. unfold AudioIO.input_queue_put, Queue.put, bind, gets.
  destruct (Nat.leb_spec MAX_QUEUE_SIZE (length (input_queue w))) as [Hle|_]; [lia|].
  rewrite andb_false_r. reflexivity.
Qed.

Lemma put_at_capacity (w : World) (item : bytes) :
  (MAX_QUEUE_SIZE <= length (input_queue w))%nat ->
  AudioIO.input_queue_put item w = (Blocked, w).
Proof.
  intros H. unfold AudioIO.input_queue_put, Queue.put, bind, gets.
  destruct (Nat.leb_spec MAX_QUEUE_SIZE (length (input_queue w))) as [_|Hlt]; [|lia].
  reflexivity.
Qed.

Lemma input_callback_below_capacity (w : World) (in_data : bytes) :
  (length (input_queue w) < MAX_QUEUE_SIZE)%nat ->
  AudioIO._input_callback in_data w
  = (Ret (in_data, AudioIO.paContinue), set_input_queue (input_queue w ++ [in_data]) w).
Proof.
  intros H. unfold AudioIO._input_callback, bind.
  rewrite put_below_capacity by exact H. reflexivity.
Qed.

Lemma input_callback_at_capacity (w : World) (in_data : bytes) :
  (MAX_QUEUE_SIZE <= length (input_queue w))%nat ->
  AudioIO._input_callback in_data w = (Blocked, w).
Proof.
  intros H. unfold AudioIO._input_callback, bind.
  rewrite put_at_capacity by exact H. reflexivity.
Qed.

Lemma get_input_frame_empty (w : World) :
  input_queue w = [] -> AudioIO.get_input_frame w = (Ret None, w).
Proof.
  intros H.
  unfold AudioIO.get_input_frame, try_except, bind, AudioIO.input_queue_get_nowait, bind, gets.
  rewrite H. reflexivity.
Qed.

Lemma get_input_frame_head (w : World) (x : bytes) (rest : list bytes) :
  input_queue w = x :: rest ->
  AudioIO.get_input_frame w = (Ret (Some x), set_input_queue rest w).
Proof.
  intros H.
  unfold AudioIO.get_input_frame, try_except, bind, AudioIO.input_queue_get_nowait, bind, gets.
  rewrite H. reflexivity.
Qed.

Lemma queue_step_bounded (w : World) (op : queue_op) :
  (length (input_queue w) <= MAX_QUEUE_SIZE)%nat ->
  (length (input_queue (queue_step w op)) <= MAX_QUEUE_SIZE)%nat.
Proof.
  intros H. destruct op as [d|]; unfold queue_step, exec.
  - destruct (Nat.lt_ge_cases (length (input_queue w)) MAX_QUEUE_SIZE) as [Hlt|Hge].
    + rewrite input_callback_below_capacity by exact Hlt. simpl.
      rewrite length_app. simpl. lia.
    + rewrite input_callback_at_capacity by exact Hge. exact H.
  - destruct (input_queue w) as [|x rest] eqn:E.
    + rewrite get_input_frame_empty by exact E. simpl. rewrite E. exact H.
    + rewrite (get_input_frame_head w x rest E). simpl. simpl in H. lia.
Qed.

Lemma queue_run_bounded (ops : list queue_op) (w : World) :
  (length (input_queue w) <= MAX_QUEUE_SIZE)%nat ->
  (length (input_queue (queue_run ops w)) <= MAX_QUEUE_SIZE)%nat.
Proof.
  revert w. induction ops as [|op ops IH]; intros w H; simpl; [exact H|].
  apply IH, queue_step_bounded, H.
Qed.

(** C1, as the code has it.  When the input queue holds its thirty frames,
    [_input_callback] does not return: [Queue.put] waits, and the queue is
    as it was.  Whatever the capture thread and the send loop do, from
    start-up on, the queue never holds more than thirty frames. *)
Theorem input_callback_waits_when_full :
  forall (w : World) (in_data : bytes),
    length (input_queue w) = MAX_QUEUE_SIZE ->
    AudioIO._input_callback in_data w = (Blocked, w)
    /\ (forall (ops : list queue_op) (t0 : Z),
          (length (input_queue (queue_run ops (init_world t0))) <= MAX_QUEUE_SIZE)%nat).
Proof.
  intros w in_data H. split.
  - apply input_callback_at_capacity. lia.
  - intros ops t0. apply queue_run_bounded. simpl. unfold MAX_QUEUE_SIZE. lia.
Qed.

Lemma input_callback_waits_when_full_witness :
  length (input_queue full_world) = MAX_QUEUE_SIZE
  /\ AudioIO._input_callback silence full_world = (Blocked, full_world).
Proof.
  split.
  - reflexivity.
  - apply (input_callback_waits_when_full full_world silence). reflexivity.
Defined.

(** C1, as the specification has it, fails: with thirty frames waiting the
    callback does not return at all, so it is not a call that returns and
    leaves the queue as it was. *)
Lemma full_queue_offer_does_not_return :
  length (input_queue full_world) = MAX_QUEUE_SIZE
  /\ result (AudioIO._input_callback silence) full_world = Blocked
  /\ ~ (exists v, AudioIO._input_callback silence full_world = (Ret v, full_world)).
Proof.
  assert (E : AudioIO._input_callback silence full_world = (Blocked, full_world))
    by (apply input_callback_at_capacity; vm_compute; lia).
  split; [reflexivity|]. split.
  - unfold result. rewrite E. reflexivity.
  - intros [v Hv]. rewrite E in Hv. discriminate.
Qed.

Lemma set_input_queue_same (w : World) : set_input_queue (input_queue w) w = w.
Proof. destruct w; reflexivity. Qed.

Lemma set_input_queue_twice (q q' : list bytes) (w : World) :
  set_input_queue q (set_input_queue q' w) = set_input_queue q w.
Proof. reflexivity. Qed.


(** ** The playback buffer *)

Lemma play_output_buffer (wr : ext unit) (pcm_data : bytes) (w : World) :
  output_buffer (exec (AudioIO.play_output wr pcm_data) w)
  = if truthy pcm_data
    then Deque.extend MAX_QUEUE_SIZE pcm_data (output_buffer w)
    else output_buffer w.
Proof.
  unfold AudioIO.play_output, exec.
  destruct (truthy pcm_data); [|reflexivity].
  destruct wr as [[]|e]; [reflexivity|].
  destruct e; reflexivity.
Qed.





Lemma play_output_trace (wr : ext unit) (pcm_data : bytes) (w : World) :
  trace (exec (AudioIO.play_output wr pcm_data) w) = trace w ++ play_events wr pcm_data.
Proof.
  unfold AudioIO.play_output, play_events, exec.
  destruct (truthy pcm_data); [|simpl; rewrite app_nil_r; reflexivity].
  destruct wr as [[]|e]; [reflexivity|].
  destruct e; simpl; rewrite ?app_nil_r; reflexivity.
Qed.

Lemma on_message_ignores_buffer (env : MsgEnv) (message : ws_data) (w : World)
      (b : list Byte.byte) :
  result (_on_message env message) (set_output_buffer b w)
  = result (_on_message env message) w
  /\ forget_buffer (exec (_on_message env message) (set_output_buffer b w))
     = forget_buffer (exec (_on_message env message) w).
Proof.
  destruct env as [dec wr loads]. destruct message as [opus|text]; simpl.
  - unfold _handle_audio, OpusCodec.decode, result, exec.
    destruct dec as [pcm|e].
    + unfold try_except, bind, call, ret, if_truthy. simpl.
      unfold AudioIO.play_output.
      destruct (truthy pcm); [|split; reflexivity].
      destruct wr as [[]|e]; [split; reflexivity|].
      destruct e; split; reflexivity.
    + destruct e; split; reflexivity.
  - unfold _handle_control, result, exec.
    destruct loads as [data|e]; [|destruct e; split; reflexivity].
    destruct data as [| | | | |items|items]; try (split; reflexivity).
    unfold try_except, bind, call, ret, logger, out, modify, py_get, py_getitem. simpl.
    destruct (dict_get "type" items) as [ty|]; [|split; reflexivity].
    simpl. destruct (eq_str ty "tts"); [|split; reflexivity].
    destruct (dict_get "state" items) as [st|]; [|split; reflexivity].
    simpl. destruct (eq_str st "stop"); split; reflexivity.
Qed.

Lemma on_message_buffer_bounded (env : MsgEnv) (message : ws_data) (w : World) :
  (length (output_buffer w) <= MAX_QUEUE_SIZE)%nat ->
  (length (output_buffer (exec (_on_message env message) w)) <= MAX_QUEUE_SIZE)%nat.
Proof.
  intros H. destruct env as [dec wr loads]. destruct message as [opus|text]; simpl.
  - unfold _handle_audio, OpusCodec.decode, exec.
    destruct dec as [pcm|e]; [|destruct e; exact H].
    unfold try_except, bind, call, ret, if_truthy. simpl.
    destruct (truthy pcm) eqn:T; [|exact H].
    change (length (output_buffer (exec (AudioIO.play_output wr pcm) w)) <= MAX_QUEUE_SIZE)%nat.
    rewrite play_output_buffer, T. apply deque_extend_bounded, H.
  - unfold _handle_control, exec.
    destruct loads as [data|e]; [|destruct e; exact H].
    destruct data as [| | | | |items|items]; try exact H.
    unfold try_except, bind, call, ret, logger, out, modify, py_get, py_getitem. simpl.
    destruct (dict_get "type" items) as [ty|]; [|exact H].
    simpl. destruct (eq_str ty "tts"); [|exact H].
    destruct (dict_get "state" items) as [st|]; [|exact H].
    simpl. destruct (eq_str st "stop"); [|exact H].
    simpl. lia.
Qed.

Lemma inbound_run_buffer_bounded (msgs : list (MsgEnv * ws_data)) (w : World) :
  (length (output_buffer w) <= MAX_QUEUE_SIZE)%nat ->
  (length (output_buffer (inbound_run msgs w)) <= MAX_QUEUE_SIZE)%nat.
Proof.
  revert w. induction msgs as [|m msgs IH]; intros w H; simpl; [exact H|].
  apply IH, on_message_buffer_bounded, H.
Qed.

Lemma handle_control_stop (message : string) (w : World) :
  _handle_control (Returns stop_message) message w
  = (Ret tt, set_output_buffer [] (emit (Log INFO (Msg_control stop_message)) w)).
Proof. reflexivity. Qed.

(** C10.  No playback path reads [output_buffer].  [play_output] writes the
    block to the device whatever the buffer holds; a message is handled the
    same way, with the same effects outside the buffer, whatever the buffer
    holds; the buffer holds bytes, never more than thirty, which is less
    than one block; and the stop message empties the buffer and takes
    nothing from what was played. *)
Theorem output_buffer_is_never_read :
  forall (env : MsgEnv) (message : ws_data) (w : World) (b : list Byte.byte)
         (pcm_data : bytes),
    trace (exec (AudioIO.play_output (wr env) pcm_data) (set_output_buffer b w))
    = trace w ++ play_events (wr env) pcm_data
    /\ result (_on_message env message) (set_output_buffer b w)
       = result (_on_message env message) w
    /\ forget_buffer (exec (_on_message env message) (set_output_buffer b w))
       = forget_buffer (exec (_on_message env message) w)
    /\ (forall (msgs : list (MsgEnv * ws_data)) (t0 : Z),
          (length (output_buffer (inbound_run msgs (init_world t0))) <= MAX_QUEUE_SIZE)%nat)
    /\ Z.of_nat MAX_QUEUE_SIZE < FRAME_BYTES
    /\ (forall text : string,
          output_buffer (exec (_handle_control (Returns stop_message) text) w) = []
          /\ played (trace (exec (_handle_control (Returns stop_message) text) w))
             = played (trace w)).
Proof.
  intros env message w b pcm_data.
  split; [apply (play_output_trace (wr env) pcm_data (set_output_buffer b w))|].
  split; [apply on_message_ignores_buffer|].
  split; [apply on_message_ignores_buffer|].
  split; [intros msgs t0; apply inbound_run_buffer_bounded; simpl; lia|].
  split; [reflexivity|].
  intros text. unfold exec. rewrite handle_control_stop. simpl.
  split; [reflexivity|].
  rewrite played_app. simpl. apply app_nil_r.
Qed.

(** ** Control messages *)

(** C5 fails on the code.  A text message that decodes to a dict with
    ['type'] equal to ['tts'] and no ['state'] makes [_handle_control] raise
    [KeyError], and one that decodes to a list makes it raise
    [AttributeError]; the handler catches [JSONDecodeError] only, which it
    logs and drops. *)
Theorem handle_control_raises_on_unexpected_shape :
  forall (message : string) (w : World),
    _handle_control (Returns (JDict [("type"%string, JStr "tts")])) message w
    = (Raise KeyError, emit (Log INFO (Msg_control (JDict [("type"%string, JStr "tts")]))) w)
    /\ _handle_control (Returns (JList [])) message w
       = (Raise AttributeError, emit (Log INFO (Msg_control (JList []))) w)
    /\ _handle_control (Throws JSONDecodeError) message w
       = (Ret tt, emit (Log WARNING (Msg_illegal_control message)) w).
Proof. intros message w. repeat split. Qed.

(** ** The keepalive loop *)

Lemma keepalive_pass_failed_send (w : World) (late : N) (e : exn) :
  is_running w = true ->
  is_Exception e = true ->
  keepalive_pass (mkKeepEnv late (Throws e)) w
  = (Ret (Continue tt),
     emit (Log WARNING Msg_heartbeat_failed)
       (set_clock (clock w + Z.max 0 (seconds ping_interval) + Z.of_N late)
          (emit (Sleep (seconds ping_interval)) w))).
Proof.
  intros Hrun He.
  unfold keepalive_pass, bind, gets. rewrite Hrun.
  unfold try_except, ws_send, call, bind, raise, Time.sleep, bind, out, modify. simpl.
  rewrite He. reflexivity.
Qed.

(** C2, as the code has it.  When a keepalive send fails while
    [is_running] is set, [_keepalive] logs a warning and goes on with its
    next pass: [is_running] stays set, so neither loop is stopped, and no
    cleanup runs, the device is not released and the socket is not closed. *)
Theorem keepalive_failure_is_logged_and_ignored :
  forall (w : World) (late : N) (e : exn),
    is_running w = true ->
    is_Exception e = true ->
    exists w' : World,
      keepalive_pass (mkKeepEnv late (Throws e)) w = (Ret (Continue tt), w')
      /\ is_running w' = true
      /\ trace w' = trace w ++ [Sleep (seconds ping_interval); Log WARNING Msg_heartbeat_failed]
      /\ releases (trace w') = releases (trace w)
      /\ closes (trace w') = closes (trace w).
Proof.
  intros w late e Hrun He.
  eexists. split; [apply keepalive_pass_failed_send; assumption|].
  simpl. rewrite <- app_assoc. simpl.
  split; [exact Hrun|]. split; [reflexivity|].
  rewrite releases_app, closes_app. simpl. split; lia.
Qed.

Lemma keepalive_failure_is_logged_and_ignored_witness :
  exists w' : World,
    keepalive_pass (mkKeepEnv 0 (Throws WebSocketException)) open_world
    = (Ret (Continue tt), w')
    /\ is_running w' = true
    /\ trace w' = trace open_world
                  ++ [Sleep (seconds ping_interval); Log WARNING Msg_heartbeat_failed]
    /\ releases (trace w') = releases (trace open_world)
    /\ closes (trace w') = closes (trace open_world).
Proof.
  apply (keepalive_failure_is_logged_and_ignored open_world 0 WebSocketException);
    reflexivity.
Defined.

(** C2, as the specification has it, fails: after a failed keepalive send
    on the open connection [is_running] is still set, the loop goes on, and
    nothing was released or closed. *)
Lemma keepalive_failure_does_not_fail_the_engine :
  is_running open_world = true
  /\ result (keepalive_pass (mkKeepEnv 0 (Throws WebSocketException))) open_world
     = Ret (Continue tt)
  /\ is_running (exec (keepalive_pass (mkKeepEnv 0 (Throws WebSocketException))) open_world)
     = true
  /\ releases (trace (exec (keepalive_pass (mkKeepEnv 0 (Throws WebSocketException)))
                        open_world)) = 0%nat
  /\ closes (trace (exec (keepalive_pass (mkKeepEnv 0 (Throws WebSocketException)))
                      open_world)) = 0%nat
  /\ ~ (is_running (exec (keepalive_pass (mkKeepEnv 0 (Throws WebSocketException)))
                      open_world) = false
        /\ (0 < releases (trace (exec (keepalive_pass
                                         (mkKeepEnv 0 (Throws WebSocketException)))
                                   open_world)))%nat).
Proof.
  repeat split. intros [H _]. vm_compute in H. discriminate.
Qed.

(** ** The send loop *)

Lemma pace_returns (env : SendEnv) (last_send : Z) (w : World) :
  pace env last_send w = (Ret tt, paced env last_send w).
Proof.
  unfold paced, exec, pace, Time.time, Time.sleep, bind, modify, gets, out, ret. simpl.
  destruct (0 <? PERIOD - (clock w + Z.of_N (dt_loop env) - last_send)); reflexivity.
Qed.

Lemma paced_trace (env : SendEnv) (last_send : Z) (w : World) :
  trace (paced env last_send w)
  = trace w ++ pacing_sleep (clock w + Z.of_N (dt_loop env)) last_send.
Proof.
  unfold paced, exec, pace, pacing_sleep, Time.time, Time.sleep, bind, modify, gets, out, ret.
  simpl.
  destruct (0 <? PERIOD - (clock w + Z.of_N (dt_loop env) - last_send)); simpl;
    rewrite ?app_nil_r; reflexivity.
Qed.


Lemma paced_state (env : SendEnv) (last_send : Z) (w : World) :
  input_queue (paced env last_send w) = input_queue w
  /\ output_buffer (paced env last_send w) = output_buffer w
  /\ is_running (paced env last_send w) = is_running w.
Proof.
  unfold paced, exec, pace, Time.time, Time.sleep, bind, modify, gets, out, ret. simpl.
  destruct (0 <? PERIOD - (clock w + Z.of_N (dt_loop env) - last_send));
    repeat split.
Qed.


Lemma pacing_sleep_no_send (now last_send : Z) :
  send_times (pacing_sleep now last_send) = [].
Proof. unfold pacing_sleep. destruct (0 <? _); reflexivity. Qed.

(** The cases of [encode_and_send]. *)

Lemma encode_and_send_empty (env : SendEnv) (last_send : Z) (w : World) :
  input_queue w = [] ->
  encode_and_send env last_send w = (Ret last_send, w).
Proof.
  intros H. unfold encode_and_send, bind.
  rewrite get_input_frame_empty by exact H. reflexivity.
Qed.

Lemma encode_and_send_empty_frame (env : SendEnv) (last_send : Z) (w : World)
      (rest : list bytes) :
  input_queue w = [] :: rest ->
  encode_and_send env last_send w = (Ret last_send, set_input_queue rest w).
Proof.
  intros H. unfold encode_and_send, bind.
  rewrite (get_input_frame_head w [] rest H). reflexivity.
Qed.

Lemma encode_and_send_encode_error (env : SendEnv) (last_send : Z) (w : World)
      (pcm : bytes) (rest : list bytes) :
  input_queue w = pcm :: rest ->
  truthy pcm = true ->
  enc env = Throws OpusError ->
  encode_and_send env last_send w
  = (Ret last_send, emit (Log ERROR Msg_encode_failed) (set_input_queue rest w)).
Proof.
  intros H T E. unfold encode_and_send, bind at 1.
  rewrite (get_input_frame_head w pcm rest H). unfold if_truthy at 1. rewrite T.
  unfold OpusCodec.encode. rewrite E. reflexivity.
Qed.

Lemma encode_and_send_encode_raises (env : SendEnv) (last_send : Z) (w : World)
      (pcm : bytes) (rest : list bytes) (e : exn) :
  input_queue w = pcm :: rest ->
  truthy pcm = true ->
  enc env = Throws e ->
  e <> OpusError ->
  encode_and_send env last_send w = (Raise e, set_input_queue rest w).
Proof.
  intros H T E Ne. unfold encode_and_send, bind at 1.
  rewrite (get_input_frame_head w pcm rest H). unfold if_truthy at 1. rewrite T.
  unfold OpusCodec.encode. rewrite E.
  destruct e; try reflexivity. congruence.
Qed.

Lemma encode_and_send_empty_packet (env : SendEnv) (last_send : Z) (w : World)
      (pcm : bytes) (rest : list bytes) :
  input_queue w = pcm :: rest ->
  truthy pcm = true ->
  enc env = Returns [] ->
  encode_and_send env last_send w = (Ret last_send, set_input_queue rest w).
Proof.
  intros H T E. unfold encode_and_send, bind at 1.
  rewrite (get_input_frame_head w pcm rest H). unfold if_truthy at 1. rewrite T.
  unfold OpusCodec.encode. rewrite E. reflexivity.
Qed.

Lemma encode_and_send_send_raises (env : SendEnv) (last_send : Z) (w : World)
      (pcm opus : bytes) (rest : list bytes) (e : exn) :
  input_queue w = pcm :: rest ->
  truthy pcm = true ->
  enc env = Returns opus ->
  truthy opus = true ->
  sent env = Throws e ->
  encode_and_send env last_send w
  = (Raise e, exec (elapse (dt_work env)) (set_input_queue rest w)).
Proof.
  intros H T E To S. unfold encode_and_send, bind at 1.
  rewrite (get_input_frame_head w pcm rest H). unfold if_truthy at 1. rewrite T.
  unfold OpusCodec.encode. rewrite E.
  unfold try_except, bind, call, ret, if_truthy. rewrite To.
  unfold ws_send, bind, call. rewrite S. reflexivity.
Qed.

Lemma encode_and_send_sent (env : SendEnv) (last_send : Z) (w : World)
      (pcm opus : bytes) (rest : list bytes) :
  input_queue w = pcm :: rest ->
  truthy pcm = true ->
  enc env = Returns opus ->
  truthy opus = true ->
  sent env = Returns tt ->
  encode_and_send env last_send w
  = (Ret (clock w + Z.of_N (dt_work env) + Z.of_N (dt_send env)),
     set_clock (clock w + Z.of_N (dt_work env) + Z.of_N (dt_send env))
       (emit (WsSend (clock w + Z.of_N (dt_work env)) (Binary opus) OPCODE_BINARY)
          (set_clock (clock w + Z.of_N (dt_work env)) (set_input_queue rest w)))).
Proof.
  intros H T E To S. unfold encode_and_send, bind at 1.
  rewrite (get_input_frame_head w pcm rest H). unfold if_truthy at 1. rewrite T.
  unfold OpusCodec.encode. rewrite E.
  unfold try_except, bind, call, ret, if_truthy. rewrite To.
  unfold ws_send, bind, call. rewrite S. reflexivity.
Qed.

Lemma send_body_unfold (env : SendEnv) (last_send : Z) (w : World) :
  send_body env last_send w = encode_and_send env last_send (paced env last_send w).
Proof. unfold send_body, bind. rewrite pace_returns. reflexivity. Qed.

Lemma send_pass_running (env : SendEnv) (last_send : Z) (w : World) :
  is_running w = true ->
  send_pass env last_send w
  = match encode_and_send env last_send (paced env last_send w) with
    | (Ret ls, w') => (Ret (Continue ls), w')
    | (Raise e, w') =>
        if is_Exception e
        then (Ret Break, emit (Log ERROR Msg_send_exception) w')
        else (Raise e, w')
    | (Blocked, w') => (Blocked, w')
    end.
Proof.
  intros H. unfold send_pass, bind at 1, gets. rewrite H.
  unfold try_except, bind. rewrite send_body_unfold.
  destruct (encode_and_send env last_send (paced env last_send w)) as [[ls|e|] w'];
    try reflexivity.
Qed.

Lemma send_pass_stopped (env : SendEnv) (last_send : Z) (w : World) :
  is_running w = false -> send_pass env last_send w = (Ret Done, w).
Proof. intros H. unfold send_pass, bind, gets. rewrite H. reflexivity. Qed.




Lemma truthy_false (b : bytes) : truthy b = false -> b = [].
Proof. destruct b; simpl; [reflexivity|discriminate]. Qed.

(** What [encode_and_send] does, in all its cases: it takes the head of the
    queue if there is one; then either it sends nothing and leaves
    [last_send] as it was (or raises), or [ws.send] returned and
    [last_send] is the clock read after it. *)
Lemma encode_and_send_cases (env : SendEnv) (last_send : Z) (w : World) :
  input_queue (exec (encode_and_send env last_send) w) = tl (input_queue w)
  /\ result (encode_and_send env last_send) w <> Blocked
  /\ ((exists logs : list io,
         trace (exec (encode_and_send env last_send) w) = trace w ++ logs
         /\ send_times logs = []
         /\ (result (encode_and_send env last_send) w = Ret last_send
             \/ exists e, result (encode_and_send env last_send) w = Raise e))
      \/ (exists opus : bytes,
            enc env = Returns opus
            /\ sent env = Returns tt
            /\ trace (exec (encode_and_send env last_send) w)
               = trace w ++ [WsSend (clock w + Z.of_N (dt_work env)) (Binary opus) OPCODE_BINARY]
            /\ clock (exec (encode_and_send env last_send) w)
               = clock w + Z.of_N (dt_work env) + Z.of_N (dt_send env)
            /\ result (encode_and_send env last_send) w
               = Ret (clock (exec (encode_and_send env last_send) w)))).
Proof.
  unfold exec, result.
  destruct (input_queue w) as [|pcm rest] eqn:Hq.
  { rewrite encode_and_send_empty by exact Hq. simpl. rewrite Hq.
    split; [reflexivity|]. split; [discriminate|].
    left. exists []. rewrite app_nil_r. auto. }
  destruct (truthy pcm) eqn:T.
  2:{ apply truthy_false in T. subst pcm.
      rewrite (encode_and_send_empty_frame _ _ _ rest Hq). simpl.
      split; [reflexivity|]. split; [discriminate|].
      left. exists []. rewrite app_nil_r. auto. }
  destruct (enc env) as [opus|e] eqn:E.
  2:{ destruct (exn_eqb OpusError e) eqn:Eo.
      - assert (e = OpusError) by (destruct e; simpl in Eo; congruence). subst e.
        rewrite (encode_and_send_encode_error _ _ _ pcm rest Hq T E). simpl.
        split; [reflexivity|]. split; [discriminate|].
        left. exists [Log ERROR Msg_encode_failed]. auto.
      - assert (e <> OpusError) by (intros ->; simpl in Eo; discriminate).
        rewrite (encode_and_send_encode_raises _ _ _ pcm rest e Hq T E) by assumption.
        simpl. split; [reflexivity|]. split; [discriminate|].
        left. exists []. rewrite app_nil_r. eauto. }
  destruct (truthy opus) eqn:To.
  2:{ apply truthy_false in To. subst opus.
      rewrite (encode_and_send_empty_packet _ _ _ pcm rest Hq T E). simpl.
      split; [reflexivity|]. split; [discriminate|].
      left. exists []. rewrite app_nil_r. auto. }
  destruct (sent env) as [[]|e] eqn:S.
  - rewrite (encode_and_send_sent _ _ _ pcm opus rest Hq T E To S). simpl.
    split; [reflexivity|]. split; [discriminate|].
    right. exists opus. auto.
  - rewrite (encode_and_send_send_raises _ _ _ pcm opus rest e Hq T E To S). simpl.
    split; [reflexivity|]. split; [discriminate|].
    left. exists []. rewrite app_nil_r. eauto.
Qed.


Lemma spaced_earlier (t t' : Z) (times : list Z) :
  t <= t' -> spaced t' times -> spaced t times.
Proof. destruct times; simpl; [tauto|]. intros H [H1 H2]. split; [lia|exact H2]. Qed.







(** ** The connection loop *)

Lemma fire_returns (cb : callback) (w : World) :
  fire cb w = (Ret tt, exec (fire cb) w).
Proof.
  destruct cb; unfold exec; simpl; [reflexivity|reflexivity|].
  unfold _on_close, _cleanup, AudioIO.release, ws_close, bind, modify, logger, out, gets.
  simpl. destruct (ws w); reflexivity.
Qed.

Lemma for_each_fire_returns (cbs : list callback) :
  forall w : World, for_each fire cbs w = (Ret tt, exec (for_each fire cbs) w).
Proof.
  induction cbs as [|cb cbs IH]; intros w; [reflexivity|].
  unfold exec. cbn [for_each]. unfold bind. rewrite fire_returns.
  rewrite IH. reflexivity.
Qed.

Lemma fire_sleeps (cb : callback) (w : World) :
  sleeps (trace (exec (fire cb) w)) = sleeps (trace w).
Proof.
  destruct cb; unfold exec; simpl; rewrite ?sleeps_app; simpl; rewrite ?app_nil_r;
    try reflexivity.
  unfold _on_close, _cleanup, AudioIO.release, ws_close, bind, modify, logger, out, gets.
  simpl. destruct (ws w); simpl; rewrite !sleeps_app; simpl; rewrite ?app_nil_r;
    reflexivity.
Qed.

Lemma for_each_fire_sleeps (cbs : list callback) :
  forall w : World, sleeps (trace (exec (for_each fire cbs) w)) = sleeps (trace w).
Proof.
  induction cbs as [|cb cbs IH]; intros w; [reflexivity|].
  unfold exec. cbn [for_each]. unfold bind. rewrite fire_returns.
  fold (exec (for_each fire cbs) (exec (fire cb) w)).
  rewrite IH. apply fire_sleeps.
Qed.

Lemma run_forever_outcome (s : Session) (w : World) :
  run_forever s w
  = (match ending s with Returns _ => Ret tt | Throws e => Raise e end,
     exec (for_each fire (callbacks s)) (emit WsRunForever w)).
Proof.
  unfold run_forever, bind, out, modify. rewrite for_each_fire_returns.
  destruct (ending s) as [[]|e]; reflexivity.
Qed.

(** One pass of the [while] of [run] whose session ends with an exception:
    the counter goes up by one, whatever the callbacks were. *)
Lemma run_from_failed (s : Session) (rest : list Session) (retries : Z) (w : World)
      (e : exn) :
  retries < max_retries ->
  ending s = Throws e ->
  is_Exception e = true ->
  run_from (s :: rest) retries w
  = run_from rest (retries + 1) (after_failed_session s retries w).
Proof.
  intros Hlt He Hex. cbn [run_from].
  destruct (Z.ltb_spec retries max_retries) as [_|]; [|lia].
  unfold bind at 1. unfold try_except at 1. unfold bind at 1.
  rewrite run_forever_outcome, He, Hex.
  reflexivity.
Qed.

Lemma run_from_returned (s : Session) (rest : list Session) (retries : Z) (w : World) :
  retries < max_retries ->
  ending s = Returns tt ->
  run_from (s :: rest) retries w
  = (Ret (Some By_break), exec (for_each fire (callbacks s)) (emit WsRunForever w)).
Proof.
  intros Hlt He. cbn [run_from].
  destruct (Z.ltb_spec retries max_retries) as [_|]; [|lia].
  unfold bind at 1. unfold try_except at 1. unfold bind at 1.
  rewrite run_forever_outcome, He. reflexivity.
Qed.

Lemma run_from_interrupted (s : Session) (rest : list Session) (retries : Z) (w : World)
      (e : exn) :
  retries < max_retries ->
  ending s = Throws e ->
  is_Exception e = false ->
  run_from (s :: rest) retries w
  = (Raise e, exec (for_each fire (callbacks s)) (emit WsRunForever w)).
Proof.
  intros Hlt He Hex. cbn [run_from].
  destruct (Z.ltb_spec retries max_retries) as [_|]; [|lia].
  unfold bind at 1. unfold try_except at 1. unfold bind at 1.
  rewrite run_forever_outcome, He, Hex. reflexivity.
Qed.

Lemma run_from_exhausted (sessions : list Session) (retries : Z) (w : World) :
  max_retries <= retries ->
  run_from sessions retries w
  = (Ret (Some By_else), emit (Log ERROR Msg_retries_exceeded) w).
Proof.
  intros H. destruct sessions; cbn [run_from];
    (destruct (Z.ltb_spec retries max_retries); [lia|reflexivity]).
Qed.


Lemma after_failed_session_sleeps (s : Session) (retries : Z) (w : World) :
  sleeps (trace (after_failed_session s retries w))
  = sleeps (trace w) ++ [seconds (delay_s (retries + 1))].
Proof.
  unfold after_failed_session, exec, Time.sleep, bind, out, modify. simpl.
  rewrite !sleeps_app. simpl. rewrite !app_nil_r.
  fold (exec (for_each fire (callbacks s)) (emit WsRunForever w)).
  rewrite for_each_fire_sleeps. simpl. rewrite sleeps_app. simpl.
  rewrite app_nil_r. reflexivity.
Qed.

Lemma connects_app a b : (connects (a ++ b) = connects a + connects b)%nat.
Proof.
  induction a as [|e a IH]; simpl; [reflexivity|].
  destruct e; simpl; rewrite IH; reflexivity.
Qed.



(** [run] never runs short of sessions when it is given five. *)
Lemma run_from_total (sessions : list Session) :
  forall (retries : Z) (w : World),
    (Z.to_nat (max_retries - retries) <= length sessions)%nat ->
    result (run_from sessions retries) w <> Ret None.
Proof.
  induction sessions as [|s rest IH]; intros retries w Hlen; unfold result.
  - rewrite run_from_exhausted by (cbn [length] in Hlen; lia). discriminate.
  - destruct (Z.lt_ge_cases retries max_retries) as [Hlt|Hge].
    + destruct (ending s) as [[]|e] eqn:He.
      * rewrite run_from_returned by assumption. discriminate.
      * destruct (is_Exception e) eqn:Hex.
        -- rewrite (run_from_failed s rest retries w e) by assumption.
           apply IH. cbn [length] in Hlen. lia.
        -- rewrite (run_from_interrupted s rest retries w e) by assumption.
           discriminate.
    + rewrite run_from_exhausted by lia. discriminate.
Qed.



(** Whatever the sessions do, the delays that [run] sleeps are the first
    ones of the schedule, in order, continuing from the counter. *)
Lemma run_from_sleeps (sessions : list Session) :
  forall (retries : Z) (w : World),
    0 <= retries ->
    exists n : nat,
      sleeps (trace (exec (run_from sessions retries) w))
      = sleeps (trace w) ++ map delay_of (seq (S (Z.to_nat retries)) n).
Proof.
  induction sessions as [|s rest IH]; intros retries w Hpos.
  - exists 0%nat. unfold exec. cbn [run_from seq map].
    destruct (retries <? max_retries); simpl; rewrite ?sleeps_app, app_nil_r;
      simpl; rewrite ?app_nil_r; reflexivity.
  - destruct (Z.lt_ge_cases retries max_retries) as [Hlt|Hge].
    + destruct (ending s) as [[]|e] eqn:He.
      * exists 0%nat. unfold exec. rewrite run_from_returned by assumption.
        cbn [snd seq map]. rewrite app_nil_r.
        fold (exec (for_each fire (callbacks s)) (emit WsRunForever w)).
        rewrite for_each_fire_sleeps. simpl. rewrite sleeps_app. simpl.
        apply app_nil_r.
      * destruct (is_Exception e) eqn:Hex.
        -- destruct (IH (retries + 1) (after_failed_session s retries w)) as (n & Hn);
             [lia|].
           exists (S n). unfold exec in *.
           rewrite (run_from_failed s rest retries w e) by assumption.
           rewrite Hn, after_failed_session_sleeps, <- app_assoc.
           f_equal. cbn [seq map app]. f_equal.
           ++ unfold delay_of. do 2 f_equal. lia.
           ++ do 2 f_equal. lia.
        -- exists 0%nat. unfold exec.
           rewrite (run_from_interrupted s rest retries w e) by assumption.
           cbn [snd seq map]. rewrite app_nil_r.
           fold (exec (for_each fire (callbacks s)) (emit WsRunForever w)).
           rewrite for_each_fire_sleeps. simpl. rewrite sleeps_app. simpl.
           apply app_nil_r.
    + exists 0%nat. unfold exec. rewrite run_from_exhausted by lia.
      simpl. rewrite sleeps_app. reflexivity.
Qed.

(** C7, as the code has it.  The retry counter is a local variable of [run]
    that no callback reaches: a session that ends with an exception adds one
    to it whatever callbacks ran in the session, [_on_open] included, and
    the delay that follows is [min(2^(retries+1), 30)] seconds.  So the
    [k]-th delay of a run is always the [k]-th of the schedule: a failure
    after a successful open continues the schedule, it does not restart
    it. *)
Theorem retry_counter_is_never_reset :
  forall (s : Session) (rest : list Session) (retries : Z) (w : World) (e : exn),
    retries < max_retries ->
    ending s = Throws e ->
    is_Exception e = true ->
    run_from (s :: rest) retries w
    = run_from rest (retries + 1) (after_failed_session s retries w)
    /\ sleeps (trace (after_failed_session s retries w))
       = sleeps (trace w) ++ [seconds (Z.min (2 ^ (retries + 1)) 30)]
    /\ (forall (sessions : list Session) (w0 : World),
          exists n : nat,
            sleeps (trace (exec (run sessions) w0))
            = sleeps (trace w0) ++ map delay_of (seq 1 n)).
Proof.
  intros s rest retries w e Hlt He Hex.
  split; [apply (run_from_failed s rest retries w e); assumption|].
  split; [apply after_failed_session_sleeps|].
  intros sessions w0. apply (run_from_sleeps sessions 0 w0). lia.
Qed.

Lemma retry_counter_is_never_reset_witness :
  In Cb_open (callbacks opening_then_failing)
  /\ run_from [opening_then_failing] 1 (init_world 0)
     = run_from [] 2 (after_failed_session opening_then_failing 1 (init_world 0))
  /\ sleeps (trace (after_failed_session opening_then_failing 1 (init_world 0)))
     = [seconds 4].
Proof.
  split; [left; reflexivity|].
  destruct (retry_counter_is_never_reset opening_then_failing [] 1 (init_world 0)
              WebSocketException) as (H1 & H2 & _); try reflexivity.
  split; [exact H1|]. rewrite H2. reflexivity.
Defined.

(** C7, as the specification has it, fails.  The first attempt fails and is
    followed by a delay of 2 seconds; in the second the connection opens,
    [_on_open] runs, and the session then ends with an exception: the delay
    that follows is 4 seconds, not the 2 seconds of a counter set back to
    zero. *)
Lemma backoff_continues_after_open :
  trace (exec (run [failing; opening_then_failing]) (init_world 0))
  = [WsRunForever;
     Log ERROR Msg_connection_exception; Log INFO (Msg_retry_in 2); Sleep (seconds 2);
     WsRunForever;
     Log INFO Msg_connected;
     ThreadStart Target_send_loop; ThreadStart Target_keepalive;
     Log ERROR Msg_connection_exception; Log INFO (Msg_retry_in 4); Sleep (seconds 4)]
  /\ sleeps (trace (exec (run [failing; opening_then_failing]) (init_world 0)))
     = map seconds [2; 4]
  /\ sleeps (trace (exec (run [failing; opening_then_failing]) (init_world 0)))
     <> map seconds [2; 2].
Proof.
  split; [vm_compute; reflexivity|].
  split; [vm_compute; reflexivity|].
  vm_compute. discriminate.
Qed.

(** ** Teardown *)

Lemma cleanup_trace (w : World) :
  _cleanup w
  = (Ret tt,
     emit (Log INFO Msg_system_released)
       ((if ws w then emit WsClose else fun w' => w')
          (emit (Log INFO Msg_audio_released) (emit DevRelease w)))).
Proof.
  unfold _cleanup, AudioIO.release, ws_close, bind, gets, logger, out, modify. simpl.
  destruct (ws w); reflexivity.
Qed.

Lemma close_by_counts (c : closing) (w : World) :
  close_by c w = (Ret tt, exec (close_by c) w)
  /\ releases (trace (exec (close_by c) w)) = S (releases (trace w))
  /\ closes (trace (exec (close_by c) w))
     = ((if ws w then 1 else 0) + closes (trace w))%nat
  /\ ws (exec (close_by c) w) = ws w.
Proof.
  destruct c; unfold exec; simpl.
  - unfold _on_close, bind, modify, logger, out. simpl. rewrite cleanup_trace. simpl.
    destruct (ws w) eqn:Hws; simpl;
      rewrite ?releases_app, ?closes_app; simpl; repeat split; try assumption; lia.
  - unfold interrupt_handler, bind, logger, out, modify. rewrite cleanup_trace. simpl.
    destruct (ws w) eqn:Hws; simpl;
      rewrite ?releases_app, ?closes_app; simpl; repeat split; try assumption; lia.
Qed.

(** C9, as the code has it.  Each way into the teardown, the close
    reported by the socket ([_on_close]) and the interrupt of the process
    (the [except KeyboardInterrupt] clause), runs [_cleanup] each time it is
    taken, without looking whether it ran before: after [k] such events
    [AudioIO.release] has been called [k] times more, and so has
    [ws.close] when [ws] is set.  [_on_error] runs no cleanup. *)
Theorem cleanup_runs_once_per_closing_event :
  forall (evs : list closing) (w : World),
    (releases (trace (exec (for_each close_by evs) w))
     = releases (trace w) + length evs)%nat
    /\ (closes (trace (exec (for_each close_by evs) w))
        = closes (trace w) + (if ws w then length evs else 0))%nat
    /\ releases (trace (exec _on_error w)) = releases (trace w)
    /\ closes (trace (exec _on_error w)) = closes (trace w).
Proof.
  intros evs w.
  assert (H : (releases (trace (exec (for_each close_by evs) w))
               = releases (trace w) + length evs)%nat
              /\ (closes (trace (exec (for_each close_by evs) w))
                  = closes (trace w) + (if ws w then length evs else 0))%nat).
  { revert w. induction evs as [|c evs IH]; intros w.
    - unfold exec. cbn [for_each ret snd length]. destruct (ws w); lia.
    - destruct (close_by_counts c w) as (Hr & Hrel & Hcl & Hws).
      unfold exec. cbn [for_each]. unfold bind. rewrite Hr.
      fold (exec (for_each close_by evs) (exec (close_by c) w)).
      destruct (IH (exec (close_by c) w)) as (IH1 & IH2).
      rewrite IH1, IH2, Hrel, Hcl, Hws. cbn [length].
      destruct (ws w); lia. }
  destruct H as (H1 & H2).
  split; [exact H1|]. split; [exact H2|].
  unfold exec. simpl. rewrite releases_app, closes_app. simpl. lia.
Qed.

(** C9, as the specification has it, fails.  The connection opens, the
    socket reports its close, and [run_forever] then lets a
    [KeyboardInterrupt] through: [_cleanup] runs from [_on_close] and again
    from the interrupt clause, so the device is released twice and the
    socket closed twice. *)
Lemma cleanup_runs_twice :
  result (main [closed_then_interrupted]) (init_world 0) = Ret Interrupted
  /\ releases (trace (exec (main [closed_then_interrupted]) (init_world 0))) = 2%nat
  /\ closes (trace (exec (main [closed_then_interrupted]) (init_world 0))) = 2%nat
  /\ releases (trace (exec (for_each close_by [Transport_close; Shutdown_signal])
                        (init_world 0))) <> 1%nat.
Proof.
  split; [vm_compute; reflexivity|].
  split; [vm_compute; reflexivity|].
  split; [vm_compute; reflexivity|].
  vm_compute. discriminate.
Qed.

(** * Further properties of the code *)

(** ** The capture queue, end to end *)

Lemma offer_all_fits (frames : list bytes) :
  forall w : World,
    (length (input_queue w) + length frames <= MAX_QUEUE_SIZE)%nat ->
    offer_all frames w = (Ret tt, set_input_queue (input_queue w ++ frames) w).
Proof.
  induction frames as [|d rest IH]; intros w H.
  - unfold offer_all. cbn [for_each]. rewrite app_nil_r, set_input_queue_same.
    reflexivity.
  - unfold offer_all. cbn [for_each]. unfold bind at 1. unfold bind at 1.
    rewrite input_callback_below_capacity by (cbn [length] in H; lia).
    unfold ret at 1. fold (offer_all rest).
    rewrite IH.
    + cbn [input_queue set_input_queue]. rewrite set_input_queue_twice, <- app_assoc.
      reflexivity.
    + cbn [input_queue set_input_queue]. rewrite length_app. cbn [length] in *. lia.
Qed.

Lemma take_n_spec (n : nat) :
  forall w : World,
    take_n n w
    = (Ret (map Some (firstn n (input_queue w))
            ++ repeat None (n - length (input_queue w))),
       set_input_queue (skipn n (input_queue w)) w).
Proof.
  induction n as [|n IH]; intros w.
  - cbn [take_n firstn skipn map repeat Nat.sub app]. rewrite set_input_queue_same.
    reflexivity.
  - cbn [take_n]. unfold bind at 1.
    destruct (input_queue w) as [|x rest] eqn:Hq.
    + rewrite get_input_frame_empty by exact Hq.
      unfold bind at 1. rewrite IH, Hq.
      cbn [firstn skipn map length app]. rewrite !Nat.sub_0_r.
      rewrite firstn_nil, skipn_nil. reflexivity.
    + rewrite (get_input_frame_head w x rest Hq).
      unfold bind at 1. rewrite IH.
      cbn [input_queue set_input_queue firstn skipn map length app Nat.sub].
      reflexivity.
Qed.

(** X1.  What [_input_callback] puts into the queue, [get_input_frame]
    hands out again, in the same order and once each: when the frames
    offered fit into the queue, every offer returns, and [n] takes after them
    return the first [n] frames of the queue followed by [None] for every
    take beyond its end, leaving the rest of the queue. *)
Theorem offered_frames_are_taken_in_order :
  forall (w : World) (frames : list bytes) (n : nat),
    (length (input_queue w) + length frames <= MAX_QUEUE_SIZE)%nat ->
    (offer_all frames ;; take_n n) w
    = (Ret (map Some (firstn n (input_queue w ++ frames))
            ++ repeat None (n - length (input_queue w ++ frames))),
       set_input_queue (skipn n (input_queue w ++ frames)) w).
Proof.
  intros w frames n H. unfold bind.
  rewrite offer_all_fits by exact H.
  rewrite take_n_spec. reflexivity.
Qed.

Lemma offered_frames_are_taken_in_order_witness :
  (offer_all [click; silence] ;; take_n 3) (init_world 0)
  = (Ret [Some click; Some silence; None], init_world 0).
Proof.
  rewrite (offered_frames_are_taken_in_order (init_world 0) [click; silence] 3).
  - reflexivity.
  - vm_compute. lia.
Defined.

(** ** The receive path *)

Lemma play_output_truthy (wr : ext unit) (pcm : bytes) (w : World) :
  truthy pcm = true ->
  AudioIO.play_output wr pcm w
  = match wr with
    | Returns _ =>
        (Ret tt,
         emit (DevWrite pcm)
           (set_output_buffer (Deque.extend MAX_QUEUE_SIZE pcm (output_buffer w)) w))
    | Throws e =>
        if exn_eqb OSError e
        then (Ret tt,
              emit (Log ERROR Msg_playback_failed)
                (set_output_buffer (Deque.extend MAX_QUEUE_SIZE pcm (output_buffer w)) w))
        else (Raise e,
              set_output_buffer (Deque.extend MAX_QUEUE_SIZE pcm (output_buffer w)) w)
    end.
Proof.
  intros T. unfold AudioIO.play_output. rewrite T.
  destruct wr as [[]|e]; [reflexivity|]. destruct e; reflexivity.
Qed.


Lemma handle_audio_cases (dec : ext bytes) (wr : ext unit) (opus : bytes) (w : World) :
  _handle_audio dec wr opus w
  = match dec with
    | Returns pcm =>
        if truthy pcm then AudioIO.play_output wr pcm w else (Ret tt, w)
    | Throws e =>
        if exn_eqb OpusError e
        then (Ret tt, emit (Log ERROR Msg_decode_failed) w)
        else (Raise e, w)
    end.
Proof.
  unfold _handle_audio, OpusCodec.decode.
  destruct dec as [pcm|e].
  - unfold try_except, bind, call, ret, if_truthy. simpl.
    destruct (truthy pcm); reflexivity.
  - destruct e; reflexivity.
Qed.



Lemma handle_control_effects (loads : ext json) (message : string) (w : World) :
  input_queue (exec (_handle_control loads message) w) = input_queue w
  /\ is_running (exec (_handle_control loads message) w) = is_running w
  /\ clock (exec (_handle_control loads message) w) = clock w
  /\ ws (exec (_handle_control loads message) w) = ws w
  /\ exists logs : list io,
       trace (exec (_handle_control loads message) w) = trace w ++ logs
       /\ forallb is_log logs = true.
Proof.
  unfold _handle_control, exec.
  destruct loads as [data|e].
  2:{ destruct e; simpl; repeat split;
        first [ exists []; rewrite app_nil_r; split; reflexivity
              | eexists; split; reflexivity ]. }
  assert (Hlog : forall w' : World,
             w' = emit (Log INFO (Msg_control data)) w
             \/ w' = set_output_buffer [] (emit (Log INFO (Msg_control data)) w) ->
             input_queue w' = input_queue w
             /\ is_running w' = is_running w
             /\ clock w' = clock w
             /\ ws w' = ws w
             /\ exists logs : list io,
                  trace w' = trace w ++ logs /\ forallb is_log logs = true).
  { intros w' [->| ->]; simpl; repeat split; eexists; split; reflexivity. }
  destruct data as [| | | | |items|items]; try (apply Hlog; left; reflexivity).
  unfold try_except, bind, call, ret, logger, out, modify, py_get, py_getitem. simpl.
  destruct (dict_get "type" items) as [ty|]; [|apply Hlog; left; reflexivity].
  simpl. destruct (eq_str ty "tts"); [|apply Hlog; left; reflexivity].
  destruct (dict_get "state" items) as [st|]; [|apply Hlog; left; reflexivity].
  simpl. destruct (eq_str st "stop"); apply Hlog; [right|left]; reflexivity.
Qed.

Lemma played_logs (logs : list io) : forallb is_log logs = true -> played logs = [].
Proof.
  induction logs as [|e logs IH]; [reflexivity|].
  destruct e; simpl; try discriminate. exact IH.
Qed.



Lemma on_message_played (env : MsgEnv) (message : ws_data) (w : World) :
  played (trace (exec (_on_message env message) w))
  = played (trace w) ++ block_played (env, message).
Proof.
  destruct message as [opus|text]; unfold block_played; cbn [fst snd _on_message].
  - unfold exec. rewrite handle_audio_cases.
    destruct (dec env) as [pcm|e].
    + destruct (truthy pcm) eqn:T.
      * rewrite (play_output_truthy (wr env) pcm w T).
        destruct (wr env) as [[]|e2].
        -- simpl. rewrite played_app. reflexivity.
        -- destruct (exn_eqb OSError e2); simpl; rewrite ?played_app, app_nil_r;
             simpl; rewrite ?app_nil_r; reflexivity.
      * simpl. destruct (wr env); rewrite app_nil_r; reflexivity.
    + destruct (exn_eqb OpusError e); simpl; rewrite ?played_app, app_nil_r;
        simpl; rewrite ?app_nil_r; reflexivity.
  - destruct (handle_control_effects (loads env) text w) as (_ & _ & _ & _ & logs & Ht & Hl).
    rewrite Ht, played_app, (played_logs logs Hl). reflexivity.
Qed.

(** X3.  The speaker gets the decoded blocks in the order in which their
    messages arrived: after any sequence of inbound messages, what was
    played is what was played before followed, message by message, by the
    block of each binary message whose decode returned a non-empty block
    and whose write returned; text messages and failed decodes or writes
    add nothing. *)
Theorem playback_order_is_arrival_order :
  forall (msgs : list (MsgEnv * ws_data)) (w : World),
    played (trace (inbound_run msgs w))
    = played (trace w) ++ flat_map block_played msgs.
Proof.
  induction msgs as [|[env message] msgs IH]; intros w.
  - simpl. rewrite app_nil_r. reflexivity.
  - unfold inbound_run. cbn [fold_left flat_map]. fold (inbound_run msgs).
    rewrite IH. unfold inbound_step. cbn [fst snd].
    rewrite on_message_played, <- app_assoc. reflexivity.
Qed.

Lemma play_run_buffer (ps : list (ext unit * bytes)) :
  forall w : World,
    (length (output_buffer w) <= MAX_QUEUE_SIZE)%nat ->
    output_buffer (play_run ps w)
    = lastn MAX_QUEUE_SIZE (output_buffer w ++ concat (map snd ps)).
Proof.
  induction ps as [|[wr pcm] ps IH]; intros w H.
  - simpl. rewrite app_nil_r. symmetry. apply lastn_all, H.
  - unfold play_run. cbn [fold_left map concat snd]. fold (play_run ps).
    unfold play_step. cbn [fst snd].
    assert (B : output_buffer (exec (AudioIO.play_output wr pcm) w)
                = lastn MAX_QUEUE_SIZE (output_buffer w ++ pcm)).
    { rewrite play_output_buffer. destruct (truthy pcm) eqn:T.
      - apply deque_extend_lastn, H.
      - apply truthy_false in T. subst pcm. rewrite app_nil_r.
        symmetry. apply lastn_all, H. }
    rewrite IH by (rewrite B, lastn_length; lia).
    rewrite B, lastn_app_lastn, <- app_assoc. reflexivity.
Qed.

(** X4.  [output_buffer] always holds the tail of what was handed to
    [play_output]: starting from a buffer of at most thirty bytes, after any
    sequence of calls it holds the last thirty bytes of the old content
    followed by all the blocks, in order.  This counts the blocks whose
    write to the speaker failed as well, since the buffer is extended
    before the write. *)
Theorem output_buffer_is_tail_of_blocks :
  forall (ps : list (ext unit * bytes)) (w : World),
    (length (output_buffer w) <= MAX_QUEUE_SIZE)%nat ->
    output_buffer (play_run ps w)
    = lastn MAX_QUEUE_SIZE (output_buffer w ++ concat (map snd ps))
    /\ (length (output_buffer (play_run ps w))
        = Nat.min MAX_QUEUE_SIZE (length (output_buffer w) + length (concat (map snd ps))))%nat.
Proof.
  intros ps w H. split.
  - apply play_run_buffer, H.
  - rewrite play_run_buffer by exact H. rewrite lastn_length, length_app. reflexivity.
Qed.

Lemma output_buffer_is_tail_of_blocks_witness :
  output_buffer (play_run [(Throws OSError, click); (Returns tt, packet)] (init_world 0))
  = repeat Byte.x00 28 ++ packet.
Proof.
  destruct (output_buffer_is_tail_of_blocks
              [(Throws OSError, click); (Returns tt, packet)] (init_world 0)) as [H _].
  - simpl. lia.
  - rewrite H. vm_compute. reflexivity.
Defined.

(** X5.  A control message that decodes to a dict is logged and otherwise
    ignored, without an exception, unless it is a [tts] message without
    ['state']: a dict without ['type'], with another type, or a [tts]
    message in another state than ['stop'] leaves the buffer alone, and the
    stop directive empties it, whatever other keys the dict has. *)
Theorem handle_control_accepts_dicts_with_state :
  forall (items : list (string * json)) (message : string) (w : World),
    lacks_state items = false ->
    _handle_control (Returns (JDict items)) message w
    = (Ret tt, control_effect items w).
Proof.
  intros items message w H.
  unfold _handle_control, control_effect, is_stop_directive, lacks_state in *.
  unfold try_except, bind, call, ret, logger, out, modify, py_get, py_getitem. simpl.
  destruct (dict_get "type" items) as [ty|]; [|reflexivity].
  simpl. destruct (eq_str ty "tts") eqn:Ety.
  - destruct (dict_get "state" items) as [st|]; [|discriminate].
    simpl. destruct (eq_str st "stop"); reflexivity.
  - destruct (dict_get "state" items); reflexivity.
Qed.

Lemma handle_control_accepts_dicts_with_state_witness :
  _handle_control
    (Returns (JDict [("type"%string, JStr "tts"); ("state"%string, JStr "start")]))
    "" (init_world 0)
  = (Ret tt,
     emit (Log INFO (Msg_control
                       (JDict [("type"%string, JStr "tts");
                               ("state"%string, JStr "start")])))
       (init_world 0))
  /\ _handle_control (Returns (JDict [("session"%string, JInt 7)])) "" (init_world 0)
     = (Ret tt,
        emit (Log INFO (Msg_control (JDict [("session"%string, JInt 7)])))
          (init_world 0)).
Proof.
  split.
  - apply (handle_control_accepts_dicts_with_state
             [("type"%string, JStr "tts"); ("state"%string, JStr "start")] ""
             (init_world 0)).
    reflexivity.
  - apply (handle_control_accepts_dicts_with_state
             [("session"%string, JInt 7)] "" (init_world 0)).
    reflexivity.
Defined.


(** ** The two loops *)

Lemma on_close_world (w : World) :
  _on_close w = (Ret tt, exec _on_close w)
  /\ is_running (exec _on_close w) = false.
Proof.
  unfold exec, _on_close, bind, modify, logger, out. simpl.
  rewrite cleanup_trace. simpl. destruct (ws w); split; reflexivity.
Qed.

Lemma send_passes_stopped (envs : list SendEnv) (last_send : Z) (w : World) :
  envs <> [] ->
  is_running w = false ->
  send_passes envs last_send w = (Ret Left_loop, w).
Proof.
  intros Hne H. destruct envs as [|env more]; [congruence|].
  cbn [send_passes]. unfold bind. rewrite send_pass_stopped by exact H. reflexivity.
Qed.

Lemma keepalive_stopped (envs : list KeepEnv) (w : World) :
  envs <> [] ->
  is_running w = false ->
  _keepalive envs w = (Ret Left_loop, w).
Proof.
  intros Hne H. destruct envs as [|env more]; [congruence|].
  cbn [_keepalive]. unfold bind at 1. unfold keepalive_pass, bind, gets.
  rewrite H. reflexivity.
Qed.

(** X7.  [_on_error] and [_on_close] stop both loops at their next test:
    after either callback, the next pass of [_send_loop] and the next pass
    of [_keepalive] leave their loop at once, without sleeping, taking a
    frame or sending, whatever passes would have followed. *)
Theorem loops_stop_after_error_or_close :
  forall (w : World) (env : SendEnv) (more : list SendEnv) (last_send : Z)
         (kenv : KeepEnv) (kmore : list KeepEnv),
    send_passes (env :: more) last_send (exec _on_error w)
    = (Ret Left_loop, exec _on_error w)
    /\ _keepalive (kenv :: kmore) (exec _on_error w) = (Ret Left_loop, exec _on_error w)
    /\ send_passes (env :: more) last_send (exec _on_close w)
       = (Ret Left_loop, exec _on_close w)
    /\ _keepalive (kenv :: kmore) (exec _on_close w) = (Ret Left_loop, exec _on_close w).
Proof.
  intros w env more last_send kenv kmore.
  destruct (on_close_world w) as [_ Hc].
  split; [|split; [|split]].
  - apply send_passes_stopped; [discriminate|reflexivity].
  - apply keepalive_stopped; [discriminate|reflexivity].
  - apply send_passes_stopped; [discriminate|exact Hc].
  - apply keepalive_stopped; [discriminate|exact Hc].
Qed.

Lemma keepalive_pass_running (env : KeepEnv) (w : World) :
  is_running w = true ->
  catchable env = true ->
  exists new : list io,
    keepalive_pass env w
    = (Ret (Continue tt),
       mkWorld (input_queue w) (output_buffer w) true (ws w)
         (clock w + seconds ping_interval + Z.of_N (ka_late env))
         (trace w ++ Sleep (seconds ping_interval) :: new))
    /\ sleeps new = []
    /\ (ping_times new = []
        \/ ping_times new = [clock w + seconds ping_interval + Z.of_N (ka_late env)]).
Proof.
  intros Hrun Hc. destruct w as [q b r s c tr]. simpl in Hrun. subst r.
  destruct env as [late [[]|e]]; unfold catchable in Hc; simpl in Hc.
  - exists [WsSend (c + seconds ping_interval + Z.of_N late) (Text "PING") OPCODE_PING].
    split; [|split; [reflexivity|right; reflexivity]].
    unfold keepalive_pass, bind, gets, Time.sleep, try_except, ws_send, call, bind, ret,
      out, modify, emit, set_clock. simpl.
    rewrite <- app_assoc. reflexivity.
  - exists [Log WARNING Msg_heartbeat_failed].
    split; [|split; [reflexivity|left; reflexivity]].
    unfold keepalive_pass, bind, gets, Time.sleep, try_except, ws_send, call, bind, ret,
      raise, logger, out, modify, emit, set_clock. simpl.
    rewrite Hc. simpl. rewrite <- app_assoc. reflexivity.
Qed.

Lemma ping_times_app a b : ping_times (a ++ b) = ping_times a ++ ping_times b.
Proof.
  induction a as [|e a IH]; simpl; [reflexivity|].
  destruct e as [| t d [|] | | | | | |]; simpl; rewrite IH; reflexivity.
Qed.

Lemma apart_earlier (gap t t' : Z) (times : list Z) :
  t <= t' -> apart gap t' times -> apart gap t times.
Proof. destruct times; simpl; [tauto|]. intros H [H1 H2]. split; [lia|exact H2]. Qed.

Lemma keepalive_run (envs : list KeepEnv) :
  forall (w : World) (t : Z),
    is_running w = true ->
    forallb catchable envs = true ->
    t <= clock w ->
    exists (w' : World) (new : list io),
      _keepalive envs w = (Ret Looping, w')
      /\ is_running w' = true
      /\ trace w' = trace w ++ new
      /\ sleeps new = repeat (seconds ping_interval) (length envs)
      /\ apart (seconds ping_interval) t (ping_times new).
Proof.
  induction envs as [|env envs IH]; intros w t Hrun Hall Ht.
  - exists w, []. simpl. rewrite app_nil_r. auto.
  - cbn [forallb] in Hall. apply andb_prop in Hall. destruct Hall as [Hc Hall].
    destruct (keepalive_pass_running env w Hrun Hc) as (new1 & Hp & Hs1 & Hping).
    set (w1 := mkWorld (input_queue w) (output_buffer w) true (ws w)
                 (clock w + seconds ping_interval + Z.of_N (ka_late env))
                 (trace w ++ Sleep (seconds ping_interval) :: new1)) in *.
    destruct (IH w1 (clock w + seconds ping_interval + Z.of_N (ka_late env)))
      as (w' & new & Hk & Hr & Htr & Hs & Hap); [reflexivity|exact Hall|unfold w1; cbn [clock]; lia|].
    exists w', (Sleep (seconds ping_interval) :: new1 ++ new).
    split; [cbn [_keepalive]; unfold bind; rewrite Hp; exact Hk|].
    split; [exact Hr|].
    split; [rewrite Htr; subst w1; cbn [trace]; rewrite <- app_assoc; reflexivity|].
    split.
    + cbn [sleeps length repeat]. rewrite sleeps_app, Hs1, Hs. reflexivity.
    + cbn [ping_times]. rewrite ping_times_app.
      destruct Hping as [Hp0|Hp1].
      * rewrite Hp0. cbn [app]. apply (apart_earlier _ t _ _) in Hap; [exact Hap|].
        unfold seconds, ping_interval. lia.
      * rewrite Hp1. cbn [app apart]. split; [lia|exact Hap].
Qed.

(** X8.  [_keepalive] has no way out while [is_running] stays set: whatever
    pings fail with an [Exception], after any number of passes the loop is
    still running and [is_running] is still set; every pass sleeps the ping
    interval of 25 seconds once, and the pings that went out are at least 25
    seconds apart, the first at least 25 seconds after the start. *)
Theorem keepalive_keeps_going :
  forall (envs : list KeepEnv) (w : World),
    is_running w = true ->
    forallb catchable envs = true ->
    exists (w' : World) (new : list io),
      _keepalive envs w = (Ret Looping, w')
      /\ is_running w' = true
      /\ trace w' = trace w ++ new
      /\ sleeps new = repeat (seconds ping_interval) (length envs)
      /\ apart (seconds ping_interval) (clock w) (ping_times new).
Proof.
  intros envs w Hrun Hall. apply keepalive_run; [assumption|assumption|lia].
Qed.

Lemma keepalive_keeps_going_witness :
  exists (w' : World) (new : list io),
    _keepalive [ping_works; ping_fails; ping_works] open_world = (Ret Looping, w')
    /\ is_running w' = true
    /\ trace w' = trace open_world ++ new
    /\ sleeps new = repeat (seconds ping_interval) 3
    /\ apart (seconds ping_interval) (clock open_world) (ping_times new).
Proof.
  apply (keepalive_keeps_going [ping_works; ping_fails; ping_works] open_world);
    reflexivity.
Defined.

(** One pass of the send loop and the queue: the queue keeps its order and
    loses its head at most, and a message goes out only for a frame that
    was taken. *)
Lemma send_pass_frames (env : SendEnv) (last_send : Z) (w : World) :
  exists new : list io,
    trace (exec (send_pass env last_send) w) = trace w ++ new
    /\ ((input_queue (exec (send_pass env last_send) w) = input_queue w
         /\ send_times new = [])
        \/ (exists x, input_queue w = x :: input_queue (exec (send_pass env last_send) w))
           /\ (length (send_times new) <= 1)%nat).
Proof.
  unfold exec.
  destruct (is_running w) eqn:Hrun.
  2:{ rewrite send_pass_stopped by exact Hrun. exists []. simpl.
      rewrite app_nil_r. auto. }
  rewrite send_pass_running by exact Hrun.
  destruct (paced_state env last_send w) as (Pq & _ & _).
  pose proof (encode_and_send_cases env last_send (paced env last_send w)) as C.
  unfold exec, result in C. rewrite Pq in C.
  destruct (input_queue w) as [|x rest] eqn:Hq.
  - clear C. rewrite encode_and_send_empty by exact Pq.
    exists (pacing_sleep (clock w + Z.of_N (dt_loop env)) last_send).
    cbn [snd]. rewrite paced_trace, Pq, pacing_sleep_no_send. auto.
  - destruct (encode_and_send env last_send (paced env last_send w)) as [r w'].
    cbn [fst snd tl] in C.
    destruct C as (Hq' & _ & [(logs & Ht & Hs & Hr) | (opus & _ & _ & Ht & _ & Hr)]).
    + assert (Hnew : send_times
                       (pacing_sleep (clock w + Z.of_N (dt_loop env)) last_send ++ logs)
                     = [])
        by (rewrite send_times_app, pacing_sleep_no_send, Hs; reflexivity).
      destruct Hr as [Hr | (e & Hr)]; subst r.
      * exists (pacing_sleep (clock w + Z.of_N (dt_loop env)) last_send ++ logs).
        cbn [snd]. rewrite Ht, paced_trace, <- app_assoc, Hq'. split; [reflexivity|].
        right. rewrite Hnew. split; [exists x; reflexivity|simpl; lia].
      * destruct (is_Exception e).
        -- exists (pacing_sleep (clock w + Z.of_N (dt_loop env)) last_send
                   ++ logs ++ [Log ERROR Msg_send_exception]).
           cbn [snd emit input_queue trace].
           rewrite Ht, paced_trace, <- !app_assoc, Hq'. split; [reflexivity|].
           right. split; [exists x; reflexivity|].
           rewrite app_assoc, send_times_app, Hnew. simpl. lia.
        -- exists (pacing_sleep (clock w + Z.of_N (dt_loop env)) last_send ++ logs).
           cbn [snd]. rewrite Ht, paced_trace, <- app_assoc, Hq'. split; [reflexivity|].
           right. rewrite Hnew. split; [exists x; reflexivity|simpl; lia].
    + subst r.
      exists (pacing_sleep (clock w + Z.of_N (dt_loop env)) last_send
              ++ [WsSend (clock (paced env last_send w) + Z.of_N (dt_work env))
                    (Binary opus) OPCODE_BINARY]).
      cbn [snd]. rewrite Ht, paced_trace, <- app_assoc, Hq'. split; [reflexivity|].
      right. split; [exists x; reflexivity|].
      rewrite send_times_app, pacing_sleep_no_send. simpl. lia.
Qed.

Lemma send_passes_frames (envs : list SendEnv) :
  forall (last_send : Z) (w : World),
    exists (k : nat) (new : list io),
      input_queue (exec (send_passes envs last_send) w) = skipn k (input_queue w)
      /\ (k <= length envs)%nat
      /\ trace (exec (send_passes envs last_send) w) = trace w ++ new
      /\ (length (send_times new) + length (input_queue (exec (send_passes envs last_send) w))
          <= length (input_queue w))%nat.
Proof.
  induction envs as [|env envs IH]; intros last_send w.
  - exists 0%nat, []. unfold exec. simpl. rewrite app_nil_r. repeat split; lia.
  - destruct (send_pass_frames env last_send w) as (new1 & Ht1 & Hcase).
    unfold exec in *. cbn [send_passes]. unfold bind.
    destruct (send_pass env last_send w) as [r w1]. cbn [snd] in Ht1, Hcase.
    assert (Hstop : exists (k : nat) (new : list io),
               input_queue w1 = skipn k (input_queue w)
               /\ (k <= length (env :: envs))%nat
               /\ trace w1 = trace w ++ new
               /\ (length (send_times new) + length (input_queue w1)
                   <= length (input_queue w))%nat).
    { destruct Hcase as [(Hq & Hs) | ((x & Hq) & Hs)].
      - exists 0%nat, new1. rewrite Hq, Hs. cbn [skipn length]. repeat split; try lia.
        exact Ht1.
      - exists 1%nat, new1. rewrite Hq. cbn [skipn length]. repeat split; try lia.
        exact Ht1. }
    destruct r as [[ls| |]|e|]; cbn [snd]; try exact Hstop.
    destruct (IH ls w1) as (k & new & Hk & Hle & Ht & Hcount).
    destruct Hcase as [(Hq & Hs) | ((x & Hq) & Hs)].
    + exists k, (new1 ++ new). rewrite Hk, Ht, Ht1, Hq, <- app_assoc.
      split; [reflexivity|]. split; [cbn [length]; lia|]. split; [reflexivity|].
      rewrite send_times_app, Hs. cbn [app]. rewrite Hk, Hq in Hcount. exact Hcount.
    + exists (S k), (new1 ++ new). rewrite Hk, Ht, Ht1, Hq, <- app_assoc.
      cbn [skipn]. split; [reflexivity|]. split; [cbn [length]; lia|].
      split; [reflexivity|].
      rewrite send_times_app, length_app. rewrite Hk in Hcount. cbn [length]. lia.
Qed.

(** X9.  The send loop uses the queue up from its head and sends at most
    one message for each frame it takes: after any number of passes the
    queue is what is left of the old queue when its first [k] frames are
    gone, with [k] no more than the passes made, and the binary messages
    sent are no more than the frames gone.  No frame is put back and none is
    sent twice. *)
Theorem send_loop_takes_frames_in_order :
  forall (dt0 : N) (envs : list SendEnv) (w : World),
    exists (k : nat) (new : list io),
      input_queue (exec (_send_loop dt0 envs) w) = skipn k (input_queue w)
      /\ (k <= length envs)%nat
      /\ trace (exec (_send_loop dt0 envs) w) = trace w ++ new
      /\ (length (send_times new) + length (input_queue (exec (_send_loop dt0 envs) w))
          <= length (input_queue w))%nat.
Proof.
  intros dt0 envs w.
  destruct (send_passes_frames envs (clock w + Z.of_N dt0)
              (set_clock (clock w + Z.of_N dt0) w)) as (k & new & H).
  exists k, new. exact H.
Qed.

(** X10.  An empty block in the queue, or an empty packet from the
    encoder, is dropped without a trace: the pass takes the frame, sends
    nothing, logs nothing, keeps [last_send], and the loop goes on. *)
Theorem empty_frame_is_dropped_silently :
  forall (w : World) (env : SendEnv) (last_send : Z) (rest : list bytes),
    is_running w = true ->
    (input_queue w = [] :: rest ->
     send_pass env last_send w
     = (Ret (Continue last_send), set_input_queue rest (paced env last_send w)))
    /\ (forall pcm : bytes,
          input_queue w = pcm :: rest ->
          truthy pcm = true ->
          enc env = Returns [] ->
          send_pass env last_send w
          = (Ret (Continue last_send), set_input_queue rest (paced env last_send w))).
Proof.
  intros w env last_send rest Hrun.
  destruct (paced_state env last_send w) as (Pq & _ & _).
  split.
  - intros Hq. rewrite send_pass_running by exact Hrun.
    rewrite (encode_and_send_empty_frame _ _ _ rest) by (rewrite Pq; exact Hq).
    reflexivity.
  - intros pcm Hq T E. rewrite send_pass_running by exact Hrun.
    rewrite (encode_and_send_empty_packet _ _ _ pcm rest) by (rewrite ?Pq; assumption).
    reflexivity.
Qed.

Lemma empty_frame_is_dropped_silently_witness :
  send_pass send_works 0 empty_frame_world
  = (Ret (Continue 0), set_input_queue [silence] (paced send_works 0 empty_frame_world)).
Proof.
  destruct (empty_frame_is_dropped_silently empty_frame_world send_works 0 [silence])
    as [H _]; [reflexivity|].
  apply H. reflexivity.
Defined.

(** X11.  An exception of the encoder that is not an [OpusError] ends the
    send loop: [OpusCodec.encode] lets it through, the [except Exception]
    of [_send_loop] logs it and breaks, the frame is gone, and the passes
    that would have followed are not made. *)
Theorem foreign_encoder_exception_ends_send_loop :
  forall (w : World) (env : SendEnv) (more : list SendEnv) (last_send : Z)
         (pcm : bytes) (rest : list bytes) (e : exn),
    is_running w = true ->
    input_queue w = pcm :: rest ->
    truthy pcm = true ->
    enc env = Throws e ->
    e <> OpusError ->
    is_Exception e = true ->
    send_passes (env :: more) last_send w
    = (Ret Left_loop,
       emit (Log ERROR Msg_send_exception)
         (set_input_queue rest (paced env last_send w))).
Proof.
  intros w env more last_send pcm rest e Hrun Hq T E Ne He.
  destruct (paced_state env last_send w) as (Pq & _ & _).
  cbn [send_passes]. unfold bind. rewrite send_pass_running by exact Hrun.
  rewrite (encode_and_send_encode_raises _ _ _ pcm rest e) by (rewrite ?Pq; assumption).
  rewrite He. reflexivity.
Qed.

Lemma foreign_encoder_exception_ends_send_loop_witness :
  send_passes [encoder_breaks; send_works] 0 two_frames_world
  = (Ret Left_loop,
     emit (Log ERROR Msg_send_exception)
       (set_input_queue [silence] (paced encoder_breaks 0 two_frames_world))).
Proof.
  apply (foreign_encoder_exception_ends_send_loop
           two_frames_world encoder_breaks [send_works] 0 silence [silence] TypeError);
    try reflexivity.
  discriminate.
Defined.

(** ** The connection loop and the callbacks *)

Lemma total_app a b : total (a ++ b) = total a + total b.
Proof. unfold total. induction a as [|x a IH]; simpl; [reflexivity|]. rewrite IH. lia. Qed.

Lemma fire_connects (cb : callback) (w : World) :
  connects (trace (exec (fire cb) w)) = connects (trace w).
Proof.
  destruct cb; unfold exec; simpl; rewrite ?connects_app; simpl; try lia.
  unfold _on_close, bind, modify, logger, out. simpl. rewrite cleanup_trace. simpl.
  destruct (ws w); simpl; rewrite !connects_app; simpl; lia.
Qed.

Lemma for_each_fire_connects (cbs : list callback) :
  forall w : World, connects (trace (exec (for_each fire cbs) w)) = connects (trace w).
Proof.
  induction cbs as [|cb cbs IH]; intros w; [reflexivity|].
  unfold exec. cbn [for_each]. unfold bind. rewrite fire_returns.
  fold (exec (for_each fire cbs) (exec (fire cb) w)).
  rewrite IH. apply fire_connects.
Qed.

Lemma session_connects (s : Session) (w : World) :
  connects (trace (exec (for_each fire (callbacks s)) (emit WsRunForever w)))
  = S (connects (trace w)).
Proof.
  rewrite for_each_fire_connects. simpl. rewrite connects_app. simpl. lia.
Qed.

Lemma after_failed_session_connects (s : Session) (retries : Z) (w : World) :
  connects (trace (after_failed_session s retries w)) = S (connects (trace w)).
Proof.
  unfold after_failed_session, exec, Time.sleep, bind, out, modify. simpl.
  rewrite !connects_app. simpl.
  fold (exec (for_each fire (callbacks s)) (emit WsRunForever w)).
  rewrite session_connects. lia.
Qed.

Lemma run_from_bounds (sessions : list Session) :
  forall (retries : Z) (w : World),
    0 <= retries ->
    exists n : nat,
      (n <= Z.to_nat (max_retries - retries))%nat
      /\ sleeps (trace (exec (run_from sessions retries) w))
         = sleeps (trace w) ++ map delay_of (seq (S (Z.to_nat retries)) n)
      /\ (connects (trace (exec (run_from sessions retries) w))
          <= connects (trace w) + Z.to_nat (max_retries - retries))%nat.
Proof.
  induction sessions as [|s rest IH]; intros retries w Hpos.
  - exists 0%nat. unfold exec. cbn [run_from seq map].
    destruct (retries <? max_retries);
      cbn [snd ret bind logger out modify trace emit];
      rewrite ?sleeps_app, ?connects_app; cbn [sleeps connects];
      rewrite ?app_nil_r; repeat split; lia.
  - destruct (Z.lt_ge_cases retries max_retries) as [Hlt|Hge].
    + destruct (ending s) as [[]|e] eqn:He.
      * exists 0%nat. unfold exec. rewrite run_from_returned by assumption.
        cbn [snd seq map]. rewrite app_nil_r.
        fold (exec (for_each fire (callbacks s)) (emit WsRunForever w)).
        rewrite for_each_fire_sleeps, session_connects. cbn [trace emit].
        rewrite sleeps_app. cbn [sleeps]. rewrite app_nil_r.
        unfold max_retries in *. repeat split; lia.
      * destruct (is_Exception e) eqn:Hex.
        -- destruct (IH (retries + 1) (after_failed_session s retries w))
             as (n & Hn & Hs & Hc); [lia|].
           exists (S n). unfold exec in *.
           rewrite (run_from_failed s rest retries w e) by assumption.
           rewrite after_failed_session_connects in Hc.
           split; [unfold max_retries in *; lia|]. split.
           ++ rewrite Hs, after_failed_session_sleeps, <- app_assoc.
              f_equal. cbn [seq map app]. f_equal.
              ** unfold delay_of. do 2 f_equal. lia.
              ** do 2 f_equal. lia.
           ++ unfold max_retries in *. lia.
        -- exists 0%nat. unfold exec.
           rewrite (run_from_interrupted s rest retries w e) by assumption.
           cbn [snd seq map]. rewrite app_nil_r.
           fold (exec (for_each fire (callbacks s)) (emit WsRunForever w)).
           rewrite for_each_fire_sleeps, session_connects. cbn [trace emit].
           rewrite sleeps_app. cbn [sleeps]. rewrite app_nil_r.
           unfold max_retries in *. repeat split; lia.
    + exists 0%nat. unfold exec. rewrite run_from_exhausted by lia.
      cbn [snd trace emit seq map]. rewrite sleeps_app, connects_app.
      cbn [sleeps connects]. rewrite !app_nil_r.
      repeat split; lia.
Qed.

(** X12.  Whatever the connection does, one call of [run] calls
    [run_forever] at most five times and sleeps at most 2 + 4 + 8 + 16 + 30
    = 60 seconds between the attempts. *)
Theorem run_is_bounded :
  forall (sessions : list Session) (w : World),
    (connects (trace (exec (run sessions) w)) <= connects (trace w) + 5)%nat
    /\ total (sleeps (trace (exec (run sessions) w)))
       <= total (sleeps (trace w)) + seconds 60.
Proof.
  intros sessions w.
  destruct (run_from_bounds sessions 0 w) as (n & Hn & Hs & Hc); [lia|].
  split; [exact Hc|].
  unfold run. rewrite Hs, total_app.
  assert (total (map delay_of (seq 1 n)) <= seconds 60).
  { change (Z.to_nat (max_retries - 0)) with 5%nat in Hn.
    destruct n as [|[|[|[|[|[|n]]]]]]; try lia; vm_compute; discriminate. }
  change (S (Z.to_nat 0)) with 1%nat. lia.
Qed.

Lemma thread_starts_app (t : thread_target) a b :
  (thread_starts t (a ++ b) = thread_starts t a + thread_starts t b)%nat.
Proof.
  induction a as [|e a IH]; simpl; [reflexivity|].
  destruct e as [| | | | | |[|]|]; destruct t; simpl; rewrite IH; reflexivity.
Qed.

Lemma fire_effects (cb : callback) (w : World) :
  is_running (exec (fire cb) w) = is_open cb
  /\ ws (exec (fire cb) w) = ws w
  /\ (forall t, thread_starts t (trace (exec (fire cb) w))
                = thread_starts t (trace w) + (if is_open cb then 1 else 0))%nat
  /\ (releases (trace (exec (fire cb) w))
      = releases (trace w) + (if is_close cb then 1 else 0))%nat
  /\ (closes (trace (exec (fire cb) w))
      = closes (trace w) + (if is_close cb then (if ws w then 1 else 0) else 0))%nat.
Proof.
  destruct cb; unfold exec; cbn [fire is_open is_close].
  - simpl. rewrite !releases_app, !closes_app. simpl.
    repeat split; try lia.
    intros t. rewrite !thread_starts_app. destruct t; simpl; lia.
  - simpl. rewrite !releases_app, !closes_app. simpl.
    repeat split; try lia.
    intros t. rewrite !thread_starts_app. destruct t; simpl; lia.
  - unfold _on_close, bind, modify, logger, out. simpl. rewrite cleanup_trace. simpl.
    destruct (ws w) eqn:Hws; simpl; rewrite !releases_app, !closes_app; simpl;
      repeat split; try lia; try assumption;
      intros t; rewrite !thread_starts_app; destruct t; simpl; lia.
Qed.

Lemma for_each_fire_effects (cbs : list callback) :
  forall w : World,
    ws (exec (for_each fire cbs) w) = ws w
    /\ (forall t, thread_starts t (trace (exec (for_each fire cbs) w))
                  = thread_starts t (trace w) + length (filter is_open cbs))%nat
    /\ (releases (trace (exec (for_each fire cbs) w))
        = releases (trace w) + length (filter is_close cbs))%nat
    /\ (closes (trace (exec (for_each fire cbs) w))
        = closes (trace w) + (if ws w then length (filter is_close cbs) else 0))%nat.
Proof.
  induction cbs as [|cb cbs IH]; intros w.
  - unfold exec. cbn [for_each ret snd filter length].
    repeat split; try lia. destruct (ws w); lia.
  - unfold exec. cbn [for_each]. unfold bind. rewrite fire_returns.
    fold (exec (for_each fire cbs) (exec (fire cb) w)).
    destruct (fire_effects cb w) as (_ & Fws & Ft & Fr & Fc).
    destruct (IH (exec (fire cb) w)) as (Iws & It & Ir & Ic).
    split; [congruence|]. split; [|split].
    + intros t. rewrite It, Ft. cbn [filter]. destruct (is_open cb); cbn [length]; lia.
    + rewrite Ir, Fr. cbn [filter]. destruct (is_close cb); cbn [length]; lia.
    + rewrite Ic, Fc, Fws. cbn [filter].
      destruct (is_close cb), (ws w); cbn [length]; lia.
Qed.

(** X13.  [_on_open] starts a send thread and a keepalive thread every time
    it runs, without looking for the ones it started before: after any
    sequence of callbacks of the socket, the threads started of each kind
    are as many more as the sequence has opens; and [is_running] is set
    exactly when the last callback was an open. *)
Theorem every_open_starts_new_threads :
  forall (cbs : list callback) (cb : callback) (w : World) (t : thread_target),
    (thread_starts t (trace (exec (for_each fire cbs) w))
     = thread_starts t (trace w) + length (filter is_open cbs))%nat
    /\ is_running (exec (for_each fire (cbs ++ [cb])) w) = is_open cb.
Proof.
  intros cbs cb w t. split.
  - apply for_each_fire_effects.
  - revert w. induction cbs as [|c cbs IH]; intros w.
    + unfold exec. cbn [app for_each]. unfold bind. rewrite fire_returns.
      cbn [ret snd]. apply fire_effects.
    + unfold exec. cbn [app for_each]. unfold bind. rewrite fire_returns.
      apply IH.
Qed.

Lemma no_close_session (s : Session) (w : World) :
  no_close s = true ->
  ws (exec (for_each fire (callbacks s)) (emit WsRunForever w)) = ws w
  /\ releases (trace (exec (for_each fire (callbacks s)) (emit WsRunForever w)))
     = releases (trace w)
  /\ closes (trace (exec (for_each fire (callbacks s)) (emit WsRunForever w)))
     = closes (trace w).
Proof.
  intros H. unfold no_close in H. apply negb_true_iff in H.
  assert (F : filter is_close (callbacks s) = []).
  { induction (callbacks s) as [|cb cbs IH]; [reflexivity|].
    cbn [existsb filter] in *. apply orb_false_iff in H. destruct H as [H1 H2].
    rewrite H1. apply IH, H2. }
  destruct (for_each_fire_effects (callbacks s) (emit WsRunForever w)) as (Hws & _ & Hr & Hc).
  rewrite Hws, Hr, Hc, F. cbn [ws emit trace length].
  rewrite releases_app, closes_app. cbn [releases closes].
  repeat split; try lia. destruct (ws w); lia.
Qed.

Lemma run_from_no_cleanup (sessions : list Session) :
  forall (retries : Z) (w : World),
    forallb no_close sessions = true ->
    ws (exec (run_from sessions retries) w) = ws w
    /\ releases (trace (exec (run_from sessions retries) w)) = releases (trace w)
    /\ closes (trace (exec (run_from sessions retries) w)) = closes (trace w).
Proof.
  induction sessions as [|s rest IH]; intros retries w Hall.
  - unfold exec. cbn [run_from].
    destruct (retries <? max_retries);
      cbn [snd ret bind logger out modify trace emit ws];
      rewrite ?releases_app, ?closes_app; cbn [releases closes]; repeat split; lia.
  - cbn [forallb] in Hall. apply andb_prop in Hall. destruct Hall as [Hs Hall].
    destruct (no_close_session s w Hs) as (Sws & Sr & Sc).
    destruct (Z.lt_ge_cases retries max_retries) as [Hlt|Hge].
    + destruct (ending s) as [[]|e] eqn:He.
      * unfold exec. rewrite run_from_returned by assumption. cbn [snd].
        repeat split; assumption.
      * destruct (is_Exception e) eqn:Hex.
        -- unfold exec in *. rewrite (run_from_failed s rest retries w e) by assumption.
           destruct (IH (retries + 1) (after_failed_session s retries w) Hall)
             as (Iws & Ir & Ic).
           rewrite Iws, Ir, Ic.
           unfold after_failed_session, exec, Time.sleep, bind, out, modify.
           cbn [snd ws trace emit set_clock].
           rewrite !releases_app, !closes_app. cbn [releases closes].
           unfold exec in Sws, Sr, Sc. rewrite Sws, Sr, Sc. repeat split; lia.
        -- unfold exec. rewrite (run_from_interrupted s rest retries w e) by assumption.
           cbn [snd]. repeat split; assumption.
    + unfold exec. rewrite run_from_exhausted by lia.
      cbn [snd ws trace emit]. rewrite releases_app, closes_app. cbn [releases closes].
      repeat split; lia.
Qed.

(** X14.  [main] releases the device and closes the socket itself only when
    it is interrupted.  In an execution in which the socket reports no
    close: when [client.run()] returns, because [run_forever] returned or
    because the retries are used up, nothing has been released or closed;
    when a [KeyboardInterrupt] comes through, [_cleanup] has run once. *)
Theorem main_cleans_up_only_when_interrupted :
  forall (sessions : list Session) (w : World),
    forallb no_close sessions = true ->
    match result (main sessions) w with
    | Ret Interrupted =>
        releases (trace (exec (main sessions) w)) = S (releases (trace w))
        /\ closes (trace (exec (main sessions) w))
           = ((if ws w then 1 else 0) + closes (trace w))%nat
    | _ =>
        releases (trace (exec (main sessions) w)) = releases (trace w)
        /\ closes (trace (exec (main sessions) w)) = closes (trace w)
    end.
Proof.
  intros sessions w Hall.
  destruct (run_from_no_cleanup sessions 0 w Hall) as (Hws & Hr & Hc).
  unfold exec, result in *. unfold main, try_except, bind. fold (run sessions w) in *.
  unfold run in *.
  destruct (run_from sessions 0 w) as [[r|e|] w1]; cbn [fst snd] in *.
  - split; assumption.
  - destruct e; cbn [exn_eqb fst snd]; try (split; assumption).
    destruct (close_by_counts Shutdown_signal w1) as (Hret & Hrel & Hcl & _).
    cbn [close_by] in Hret, Hrel, Hcl. rewrite Hret.
    cbn [fst snd ret]. rewrite Hrel, Hcl, Hws, Hr, Hc. split; reflexivity.
  - split; assumption.
Qed.

Lemma main_cleans_up_only_when_interrupted_witness :
  releases (trace (exec (main (repeat failing 5)) (init_world 0))) = 0%nat
  /\ releases (trace (exec (main [failing; interrupted]) (init_world 0))) = 1%nat.
Proof.
  split.
  - pose proof (main_cleans_up_only_when_interrupted (repeat failing 5) (init_world 0)
                  eq_refl) as H.
    vm_compute in H. apply H.
  - pose proof (main_cleans_up_only_when_interrupted [failing; interrupted] (init_world 0)
                  eq_refl) as H.
    vm_compute in H. vm_compute. apply H.
Defined.

(** ** The period of the send loop *)

(** X15.  The send loop does not make up for the time its own work takes.
    In a pass that has to wait and then sends a frame, the send is called
    exactly one period after [last_send], plus what the sleep was late and
    what fetching and encoding took; [last_send] becomes the time at which
    the send has returned.  So two sends in a row are one period plus these
    overheads apart. *)
Theorem send_period_includes_overhead :
  forall (w : World) (env : SendEnv) (last_send : Z) (pcm opus : bytes)
         (rest : list bytes),
    is_running w = true ->
    input_queue w = pcm :: rest ->
    truthy pcm = true ->
    enc env = Returns opus ->
    truthy opus = true ->
    sent env = Returns tt ->
    clock w + Z.of_N (dt_loop env) < last_send + PERIOD ->
    exists w' : World,
      send_pass env last_send w
      = (Ret (Continue (last_send + PERIOD + Z.of_N (late env) + Z.of_N (dt_work env)
                        + Z.of_N (dt_send env))), w')
      /\ trace w'
         = trace w
           ++ [Sleep (PERIOD - (clock w + Z.of_N (dt_loop env) - last_send));
               WsSend (last_send + PERIOD + Z.of_N (late env) + Z.of_N (dt_work env))
                 (Binary opus) OPCODE_BINARY]
      /\ input_queue w' = rest.
Proof.
  intros w env last_send pcm opus rest Hrun Hq T E To S Hwait.
  destruct (paced_state env last_send w) as (Pq & _ & _).
  assert (Hc : clock (paced env last_send w) = last_send + PERIOD + Z.of_N (late env)).
  { unfold paced, exec, pace, Time.time, Time.sleep, bind, out, modify, gets, ret.
    cbn [fst snd clock set_clock emit].
    destruct (Z.ltb_spec 0 (PERIOD - (clock w + Z.of_N (dt_loop env) - last_send)));
      [|lia].
    cbn [fst snd clock set_clock emit]. lia. }
  assert (Ht : trace (paced env last_send w)
               = trace w ++ [Sleep (PERIOD - (clock w + Z.of_N (dt_loop env) - last_send))]).
  { rewrite paced_trace. unfold pacing_sleep.
    destruct (Z.ltb_spec 0 (PERIOD - (clock w + Z.of_N (dt_loop env) - last_send)));
      [reflexivity|lia]. }
  eexists. split.
  - rewrite send_pass_running by exact Hrun.
    rewrite (encode_and_send_sent _ _ _ pcm opus rest) by (rewrite ?Pq; assumption).
    rewrite Hc. reflexivity.
  - cbn [trace input_queue emit set_clock set_input_queue].
    rewrite Ht, <- app_assoc. split; reflexivity.
Qed.

Lemma send_period_includes_overhead_witness :
  exists w' : World,
    send_pass (mkSendEnv 0 2000 1000 (Returns packet) (Returns tt) 500) 0 two_frames_world
    = (Ret (Continue (0 + PERIOD + 2000 + 1000 + 500)), w')
    /\ trace w'
       = trace two_frames_world
         ++ [Sleep (PERIOD - (clock two_frames_world + 0 - 0));
             WsSend (0 + PERIOD + 2000 + 1000) (Binary packet) OPCODE_BINARY]
    /\ input_queue w' = [silence].
Proof.
  apply (send_period_includes_overhead
           two_frames_world (mkSendEnv 0 2000 1000 (Returns packet) (Returns tt) 500)
           0 silence packet [silence]); reflexivity.
Defined.
